(** * xstate core utilities ([packages/core/src/utils.ts])

    A shallow embedding of the state-value and event-normalisation helpers
    of [utils.ts], together with the properties the specification states
    about them.

    The TypeScript annotations are erased at run time, so the functions are
    embedded over one universe of JavaScript values and dispatch on the
    run-time shape of their arguments exactly where the source does
    ([typeof], [Array.isArray], [in], ...).  Exceptions are explicit: a
    computation that may throw returns a [result]. *)

From Stdlib Require Import String Ascii List ZArith Bool Arith Lia.
From Stdlib Require Import DecimalString.
From Stdlib Require HexadecimalString HexadecimalN.
Import ListNotations.
Local Open Scope string_scope.
Local Open Scope list_scope.

(** ** JavaScript values *)

(** A closure is known by the data JavaScript exposes about it: its [name]
    and [length] own properties and the text [toString] prints. *)
Record closure : Set := mkClosure
  { fn_name : string;
    fn_length : nat;
    fn_source : string }.

(** The fragment of JavaScript values the utilities handle.  Numbers are
    the integers (safe-integer range).  An object is a plain record: the
    list of its own enumerable properties in iteration order, keys pairwise
    distinct; properties inherited from [Object.prototype] are not part of
    the record, and method calls on it resolve to the built-in methods. *)
#[warnings="-register-all"]
Inductive value : Type :=
| VUndefined
| VNull
| VBool (b : bool)
| VNum (n : Z)
| VStr (s : string)
| VArr (items : list value)
| VObj (fields : list (string * value))
| VFun (f : closure).

Inductive exn : Set :=
| TypeError
| Error (message : string).

Inductive result (A : Type) : Type :=
| Ret (a : A)
| Throw (e : exn).
Arguments Ret {A} a.
Arguments Throw {A} e.

Definition bind {A B : Type} (m : result A) (k : A -> result B) : result B :=
  match m with
  | Ret a => k a
  | Throw e => Throw e
  end.

Declare Scope js_scope.
Delimit Scope js_scope with js.
Notation "x <- m ;; k" := (bind m (fun x => k))
  (at level 61, m at next level, right associativity) : js_scope.
Local Open Scope js_scope.

(** [try { body } catch (e) { throw handler }] *)
Definition try_catch {A : Type} (body : result A) (handler : exn) : result A :=
  match body with
  | Ret a => Ret a
  | Throw _ => Throw handler
  end.

Inductive jstype : Set :=
| TUndefined | TObject | TBoolean | TNumber | TString | TFunction.

Definition jstype_eqb (a b : jstype) : bool :=
  match a, b with
  | TUndefined, TUndefined | TObject, TObject | TBoolean, TBoolean
  | TNumber, TNumber | TString, TString | TFunction, TFunction => true
  | _, _ => false
  end.

(** [typeof v] *)
Definition typeof (v : value) : jstype :=
  match v with
  | VUndefined => TUndefined
  | VNull | VArr _ | VObj _ => TObject
  | VBool _ => TBoolean
  | VNum _ => TNumber
  | VStr _ => TString
  | VFun _ => TFunction
  end.

(** [!!v] *)
Definition truthy (v : value) : bool :=
  match v with
  | VUndefined | VNull => false
  | VBool b => b
  | VNum n => negb (n =? 0)%Z
  | VStr s => negb (s =? "")
  | VArr _ | VObj _ | VFun _ => true
  end.

(** [a || b] *)
Definition js_or (a b : value) : value := if truthy a then a else b.

(** [v === s] for a string constant [s] *)
Definition strict_eq_string (v : value) (s : string) : bool :=
  match v with
  | VStr s' => s' =? s
  | _ => false
  end.

Definition string_of_nat (n : nat) : string :=
  NilZero.string_of_uint (Nat.to_uint n).

Definition string_of_Z (n : Z) : string :=
  NilZero.string_of_int (Z.to_int n).

(** [Array.prototype.join] on strings *)
Fixpoint join (sep : string) (l : list string) : string :=
  match l with
  | [] => ""
  | [x] => x
  | x :: rest => (x ++ sep ++ join sep rest)%string
  end.

(** The abstract operation ToString, as used by template literals and
    property keys, with the built-in conversions: a record prints as
    ["[object Object]"] and an integer digit by digit.  A record with a
    [toString] property of its own is converted by that property instead,
    and an integer from [10^21] on is printed in exponent form; the
    properties below that rest on the conversion exclude both
    ([plainly_printed]). *)
Fixpoint to_string (v : value) : string :=
  match v with
  | VUndefined => "undefined"
  | VNull => "null"
  | VBool true => "true"
  | VBool false => "false"
  | VNum n => string_of_Z n
  | VStr s => s
  | VArr items =>
      join ","
        (map (fun x => match x with
                       | VUndefined | VNull => ""
                       | _ => to_string x
                       end) items)
  | VObj _ => "[object Object]"
  | VFun f => fn_source f
  end.

(** [v.toString()], the built-in method: a method call, so it throws on
    [undefined] and [null]. *)
Definition toString (v : value) : result string :=
  match v with
  | VUndefined | VNull => Throw TypeError
  | _ => Ret (to_string v)
  end.

(** Index keys ["0"], ["1"], ... paired with the items of an array. *)
Fixpoint indexed_from {A : Type} (i : nat) (l : list A) : list (string * A) :=
  match l with
  | [] => []
  | x :: rest => (string_of_nat i, x) :: indexed_from (S i) rest
  end.

Definition chars (s : string) : list value :=
  map (fun c => VStr (String c "")) (list_ascii_of_string s).

(** Own enumerable string-keyed properties, in iteration order: what
    [Object.keys] lists and what an object spread copies. *)
Definition own_entries (v : value) : list (string * value) :=
  match v with
  | VObj fields => fields
  | VArr items => indexed_from 0 items
  | VStr s => indexed_from 0 (chars s)
  | _ => []
  end.

Fixpoint lookup (k : string) (fields : list (string * value)) : option value :=
  match fields with
  | [] => None
  | (k', v) :: rest => if k' =? k then Some v else lookup k rest
  end.

Definition has_key (k : string) (fields : list (string * value)) : bool :=
  match lookup k fields with
  | Some _ => true
  | None => false
  end.

(** [Object.keys(v)] *)
Definition Object_keys (v : value) : result (list string) :=
  match v with
  | VUndefined | VNull => Throw TypeError
  | _ => Ret (map fst (own_entries v))
  end.

(** The property names every object inherits from [Object.prototype]. *)
Definition object_prototype_names : list string :=
  ["constructor"; "__defineGetter__"; "__defineSetter__"; "hasOwnProperty";
   "__lookupGetter__"; "__lookupSetter__"; "isPrototypeOf";
   "propertyIsEnumerable"; "toString"; "valueOf"; "__proto__";
   "toLocaleString"].

(** The property names of [Array.prototype] (ECMAScript 2023). *)
Definition array_prototype_names : list string :=
  ["length"; "constructor"; "at"; "concat"; "copyWithin"; "fill"; "find";
   "findIndex"; "findLast"; "findLastIndex"; "lastIndexOf"; "pop"; "push";
   "reverse"; "shift"; "unshift"; "slice"; "sort"; "splice"; "includes";
   "indexOf"; "join"; "keys"; "entries"; "values"; "forEach"; "filter";
   "flat"; "flatMap"; "map"; "every"; "some"; "reduce"; "reduceRight";
   "toReversed"; "toSorted"; "toSpliced"; "with"; "toLocaleString";
   "toString"].

(** The property names of [Function.prototype]. *)
Definition function_prototype_names : list string :=
  ["length"; "name"; "arguments"; "caller"; "constructor"; "apply"; "bind";
   "call"; "toString"].

Definition named (k : string) (names : list string) : bool :=
  existsb (String.eqb k) names.

(** [k in v] follows the prototype chain: on a record, its own keys and
    the names of [Object.prototype]; on an array, the indices, [length]
    and the names of [Array.prototype] and [Object.prototype]; on a
    closure, [length], [name] and the names of [Function.prototype] and
    [Object.prototype].  On a primitive the operator throws. *)
Definition js_in (k : string) (v : value) : result bool :=
  match v with
  | VObj fields => Ret (has_key k fields || named k object_prototype_names)
  | VArr items =>
      Ret (has_key k (indexed_from 0 items) || (k =? "length")
           || named k array_prototype_names
           || named k object_prototype_names)
  | VFun _ =>
      Ret ((k =? "length") || (k =? "name")
           || named k function_prototype_names
           || named k object_prototype_names)
  | _ => Throw TypeError
  end.

(** [v[k]] and [v.k], for a property the value has of its own (on an
    array and a closure, [length] and [name] included).  A name that is
    only inherited reads a built-in of the host, which the values here do
    not include: no property below reads one. *)
Definition get (v : value) (k : string) : result value :=
  match v with
  | VUndefined | VNull => Throw TypeError
  | VObj fields =>
      Ret (match lookup k fields with Some x => x | None => VUndefined end)
  | VArr items =>
      Ret (match lookup k (indexed_from 0 items) with
           | Some x => x
           | None => if k =? "length" then VNum (Z.of_nat (length items))
                     else VUndefined
           end)
  | VStr s =>
      Ret (match lookup k (indexed_from 0 (chars s)) with
           | Some x => x
           | None => if k =? "length" then VNum (Z.of_nat (String.length s))
                     else VUndefined
           end)
  | VFun f =>
      Ret (if k =? "length" then VNum (Z.of_nat (fn_length f))
           else if k =? "name" then VStr (fn_name f)
           else VUndefined)
  | VBool _ | VNum _ => Ret VUndefined
  end.

(** [obj[k] = v] on a record: an existing key keeps its place, a new one
    goes last.  (An engine lists integer-like keys first; no property below
    depends on the order of a record built by assignment.  An assignment
    to the key ["__proto__"] goes through the setter of [Object.prototype]
    instead; the properties below that rest on an assignment exclude that
    key.) *)
Fixpoint set_field (k : string) (v : value) (fields : list (string * value))
  : list (string * value) :=
  match fields with
  | [] => [(k, v)]
  | (k', v') :: rest =>
      if k' =? k then (k, v) :: rest else (k', v') :: set_field k v rest
  end.

(** [{ ...fields, ...src }] *)
Definition spread (fields : list (string * value)) (src : value)
  : list (string * value) :=
  fold_left (fun acc kv => set_field (fst kv) (snd kv) acc)
            (own_entries src) fields.

(** [String.prototype.split(d)] for a non-empty separator [d]: the list is
    never empty and its head is the segment being read.  [skip] counts the
    characters of a matched separator still to be passed over. *)
Fixpoint split_by (d : string) (skip : nat) (s : string) : list string :=
  match s with
  | "" => [""]
  | String c s' =>
      match skip with
      | S k => split_by d k s'
      | O =>
          if prefix d s then "" :: split_by d (String.length d - 1) s'
          else match split_by d 0 s' with
               | seg :: rest => String c seg :: rest
               | [] => [String c ""]
               end
      end
  end.

(** [s.split(d)] *)
Definition split (s d : string) : list string :=
  match d with
  | "" => map (fun c => String c "") (list_ascii_of_string s)
  | _ => split_by d 0 s
  end.

(** [s.includes(d)] *)
Fixpoint includes (s d : string) : bool :=
  prefix d s ||
  match s with
  | "" => false
  | String _ s' => includes s' d
  end.

(** [a && b] on computations that may throw: [b] runs only when [a] is
    true. *)
Definition and_then (a b : result bool) : result bool :=
  x <- a ;; if x then b else Ret false.
Infix "&&&" := and_then (at level 40, left associativity) : js_scope.

(** ** Constants of [./constants] *)

(** Modelled from the spec: the constant [STATE_DELIMITER] imported from
    [./constants], a file that is not part of the sources; the
    specification gives its value (the default delimiter is a period). *)
Definition STATE_DELIMITER : string := ".".

(** ** The utilities *)

Definition isArray (v : value) : bool :=
  match v with
  | VArr _ => true
  | _ => false
  end.

Definition isFunction (v : value) : bool := jstype_eqb (typeof v) TFunction.

Definition isString (v : value) : bool := jstype_eqb (typeof v) TString.

Definition keys (v : value) : result (list string) := Object_keys v.

(** The two errors the utilities raise themselves. *)
Definition ParseError (stateId : value) : exn :=
  Error ("'" ++ to_string stateId ++ "' is not a valid state path.")%string.

Definition EventTypeError : exn :=
  Error "Events must be strings or objects with a string event.type property.".

Definition getEventType (event : value) : result value :=
  try_catch
    (if isString event || jstype_eqb (typeof event) TNumber
     then Ret (VStr (to_string event))
     else get event "type")
    EventTypeError.

Definition toStatePath (stateId : value) (delimiter : string) : result value :=
  try_catch
    (if isArray stateId then Ret stateId
     else s <- toString stateId ;;
          Ret (VArr (map VStr (split s delimiter))))
    (ParseError stateId).

Definition isStateLike (state : value) : result bool :=
  Ret (jstype_eqb (typeof state) TObject)
  &&& js_in "value" state
  &&& js_in "context" state
  &&& js_in "event" state
  &&& js_in "_event" state.

(** The [for] loop of [pathToStateValue]: the properties the object held by
    [marker] ends up with, when the loop reaches it at index [i] with
    [steps] iterations left.  Every marker is a fresh object, written once.
    (Under the key ["__proto__"] the assignment goes to the prototype of
    the marker instead of adding a key; the properties below that describe
    the value built exclude that key, the others hold with it too.) *)
Fixpoint fill_marker (statePath : list value) (i steps : nat)
  : list (string * value) :=
  match steps with
  | O => []
  | S steps' =>
      let key := to_string (nth i statePath VUndefined) in
      if (i =? length statePath - 2)%nat
      then [(key, nth (i + 1) statePath VUndefined)]
      else [(key, VObj (fill_marker statePath (i + 1) steps'))]
  end.

Definition pathToStateValue (statePath : list value) : value :=
  if (length statePath =? 1)%nat then nth 0 statePath VUndefined
  else VObj (fill_marker statePath 0 (length statePath - 1)).

(** The items of an array value, as [statePath.length] and
    [statePath[i]] see them. *)
Definition elements (v : value) : list value :=
  match v with
  | VArr items => items
  | _ => []
  end.

Definition toStateValue (stateValue : value) (delimiter : string)
  : result value :=
  like <- isStateLike stateValue ;;
  if like then get stateValue "value"
  else if isArray stateValue
  then Ret (pathToStateValue (elements stateValue))
  else if negb (jstype_eqb (typeof stateValue) TString)
  then Ret stateValue
  else statePath <- toStatePath stateValue delimiter ;;
       Ret (pathToStateValue (elements statePath)).

(** [array.every(callback)] for a callback that may throw or, here, run
    out of fuel. *)
Fixpoint every {A : Type} (callback : A -> option (result bool))
  (array : list A) : option (result bool) :=
  match array with
  | [] => Some (Ret true)
  | x :: rest =>
      match callback x with
      | Some (Ret true) => every callback rest
      | other => other
      end
  end.

(** A measure on values under which the sub-values [matchesState] recurses
    on are lighter than its first argument, also after normalisation. *)
Fixpoint weight (v : value) : nat :=
  match v with
  | VStr s => S (String.length s)
  | VArr items => S (list_sum (map (fun x => S (weight x)) items))
  | VObj fields => S (list_sum (map (fun kv => weight (snd kv)) fields))
  | _ => 1
  end.

(** The body of [matchesState], with [recur] for the recursive call. *)
Definition matchesState_body
  (recur : value -> value -> string -> option (result bool))
  (parentStateId childStateId : value) (delimiter : string)
  : option (result bool) :=
  match toStateValue parentStateId delimiter with
  | Throw e => Some (Throw e)
  | Ret parentStateValue =>
  match toStateValue childStateId delimiter with
  | Throw e => Some (Throw e)
  | Ret childStateValue =>
      if isString childStateValue then
        if isString parentStateValue
        then Some (Ret (strict_eq_string childStateValue
                          (to_string parentStateValue)))
        else Some (Ret false)
      else if isString parentStateValue
      then Some (js_in (to_string parentStateValue) childStateValue)
      else
        match keys parentStateValue with
        | Throw e => Some (Throw e)
        | Ret ks =>
            every
              (fun key =>
                 match js_in key childStateValue with
                 | Throw e => Some (Throw e)
                 | Ret false => Some (Ret false)
                 | Ret true =>
                     match get parentStateValue key,
                           get childStateValue key with
                     | Ret p, Ret c => recur p c STATE_DELIMITER
                     | Throw e, _ | _, Throw e => Some (Throw e)
                     end
                 end)
              ks
        end
  end
  end.

(** [matchesState] recurses on values it has just normalised, which are not
    sub-terms of its arguments: the recursion is unrolled [fuel] times,
    [None] meaning that this was not enough. *)
Fixpoint matchesState_fuel (fuel : nat)
  : value -> value -> string -> option (result bool) :=
  match fuel with
  | O => fun _ _ _ => None
  | S fuel' => matchesState_body (matchesState_fuel fuel')
  end.

(** The weight of the first argument bounds the depth of the recursion
    ([matchesState_equation], [matchesState_total]). *)
Definition matchesState (parentStateId childStateId : value)
  (delimiter : string) : option (result bool) :=
  matchesState_fuel (S (weight parentStateId))
                    parentStateId childStateId delimiter.

Definition flatten {A : Type} (array : list (list A)) : list A :=
  concat array.

(** [!Object.keys(v).length], for a [v] that is neither [undefined] nor
    [null]. *)
Definition no_own_keys (v : value) : bool :=
  match own_entries v with
  | [] => true
  | _ :: _ => false
  end.

(** The test of [toStatePaths] on a sub-value:
    [typeof sub !== 'string' && (!sub || !Object.keys(sub).length)]. *)
Definition isChildless (subStateValue : value) : bool :=
  negb (isString subStateValue)
  && (negb (truthy subStateValue) || no_own_keys subStateValue).

Fixpoint toStatePaths (stateValue : value) : list (list string) :=
  if negb (truthy stateValue) then [[]]
  else
    match stateValue with
    | VStr s => [[s]]
    | VObj fields =>
        flatten
          (map (fun kv =>
                  let key := fst kv in
                  let subStateValue := snd kv in
                  if isChildless subStateValue then [[key]]
                  else map (fun subPath => key :: subPath)
                           (toStatePaths subStateValue))
               fields)
    | VArr items =>
        flatten
          ((fix over_items (i : nat) (l : list value) {struct l} :=
              match l with
              | [] => []
              | subStateValue :: rest =>
                  let key := string_of_nat i in
                  (if isChildless subStateValue then [[key]]
                   else map (fun subPath => key :: subPath)
                            (toStatePaths subStateValue))
                  :: over_items (S i) rest
              end) 0 items)
    | _ => flatten []
    end.

Definition toArrayStrict (v : value) : value :=
  if isArray v then v else VArr [v].

Definition toArray (v : value) : value :=
  match v with
  | VUndefined => VArr []
  | _ => toArrayStrict v
  end.

Definition toEventObject (event payload : value) : value :=
  match event with
  | VStr _ => VObj (spread [("type", event)] payload)
  | _ => event
  end.

Definition isSCXMLEvent (event : value) : result bool :=
  Ret (negb (isString event))
  &&& js_in "$$type" event
  &&& (t <- get event "$$type" ;; Ret (strict_eq_string t "scxml")).

Definition toSCXMLEvent (event scxmlEvent : value) : result value :=
  wrapped <- isSCXMLEvent event ;;
  if wrapped then Ret event
  else
    let eventObject := toEventObject event VUndefined in
    name <- get eventObject "type" ;;
    Ret (VObj (spread [("name", name);
                       ("data", eventObject);
                       ("$$type", VStr "scxml");
                       ("type", VStr "external")]
                      scxmlEvent)).

Section Targets.

(** The constant [TARGETLESS_KEY] imported from [./constants], a file that
    is not part of the sources: a reserved string. *)
Variable TARGETLESS_KEY : string.

Definition normalizeTarget (target : value) : value :=
  if match target with VUndefined => true | _ => false end
     || strict_eq_string target TARGETLESS_KEY
  then VUndefined
  else toArray target.

End Targets.

Definition noop : value :=
  VFun {| fn_name := "noop"; fn_length := 0; fn_source := "() => void 0" |}.

Definition toObserver (nextHandler errorHandler completionHandler : value)
  : value :=
  if jstype_eqb (typeof nextHandler) TObject then nextHandler
  else VObj [("next", nextHandler);
             ("error", js_or errorHandler noop);
             ("complete", js_or completionHandler noop)].

(** ** The other utilities *)

(** The [for] loop of [mapValues], from index [i] on; [acc] is [result]. *)
Fixpoint mapValues_loop
  (iteratee : value -> string -> value -> nat -> result value)
  (collection : value) (collectionKeys : list string) (i : nat)
  (acc : list (string * value)) : result value :=
  match collectionKeys with
  | [] => Ret (VObj acc)
  | key :: rest =>
      item <- get collection key ;;
      mapped <- iteratee item key collection i ;;
      mapValues_loop iteratee collection rest (S i) (set_field key mapped acc)
  end.

Definition mapValues (collection : value)
  (iteratee : value -> string -> value -> nat -> result value)
  : result value :=
  collectionKeys <- keys collection ;;
  mapValues_loop iteratee collection collectionKeys 0 [].

(** The [for...of] loop of [mapFilterValues]. *)
Fixpoint mapFilterValues_loop
  (iteratee : value -> string -> value -> result value)
  (predicate : value -> result bool)
  (collection : value) (collectionKeys : list string)
  (acc : list (string * value)) : result value :=
  match collectionKeys with
  | [] => Ret (VObj acc)
  | key :: rest =>
      item <- get collection key ;;
      keep <- predicate item ;;
      if negb keep
      then mapFilterValues_loop iteratee predicate collection rest acc
      else
        mapped <- iteratee item key collection ;;
        mapFilterValues_loop iteratee predicate collection rest
                             (set_field key mapped acc)
  end.

Definition mapFilterValues (collection : value)
  (iteratee : value -> string -> value -> result value)
  (predicate : value -> result bool) : result value :=
  collectionKeys <- keys collection ;;
  mapFilterValues_loop iteratee predicate collection collectionKeys [].

(** [path(props)(object)] *)
Fixpoint path (props : list string) (object : value) : result value :=
  match props with
  | [] => Ret object
  | prop :: rest => next <- get object prop ;; path rest next
  end.

Section Calls.

(** What calling a closure on a list of arguments does: the closures the
    utilities are handed come from their callers. *)
Variable call : closure -> list value -> result value.

(** The [for...of] loop of [mapContext]. *)
Fixpoint mapContext_loop (mapper context _event : value)
  (mapperKeys : list string) (acc : list (string * value)) : result value :=
  match mapperKeys with
  | [] => Ret (VObj acc)
  | key :: rest =>
      subMapper <- get mapper key ;;
      match subMapper with
      | VFun f =>
          data <- get _event "data" ;;
          mapped <- call f [context; data] ;;
          mapContext_loop mapper context _event rest (set_field key mapped acc)
      | _ =>
          mapContext_loop mapper context _event rest
                          (set_field key subMapper acc)
      end
  end.

Definition mapContext (mapper context _event : value) : result value :=
  match mapper with
  | VFun f => data <- get _event "data" ;; call f [context; data]
  | _ =>
      mapperKeys <- Object_keys mapper ;;
      mapContext_loop mapper context _event mapperKeys []
  end.

End Calls.

(** [try { return body } catch (e) { return false }] *)
Definition or_false (body : result bool) : bool :=
  match body with
  | Ret b => b
  | Throw _ => false
  end.

Definition isMachineNode (v : value) : bool :=
  or_false (js_in "__xstatenode" v
            &&& (parent <- get v "parent" ;;
                 Ret match parent with VUndefined => true | _ => false end)).

(** [n.toString(16)] on a natural number *)
Definition hex_of_N (n : N) : string :=
  HexadecimalString.NilZero.string_of_uint (N.to_hex_uint n).

(** [uniqueId], with the counter [currentId] of its closure passed in and
    out.  The counter is a double that counts up from zero: [currentId++]
    adds one up to [2^53] and leaves [2^53] as it is. *)
Definition uniqueId (currentId : N) : string * N :=
  let currentId :=
    if (currentId <? 2 ^ 53)%N then N.succ currentId else currentId in
  (hex_of_N currentId, currentId).

(** The identifiers of [n] successive calls, from a given counter. *)
Fixpoint uniqueIds (n : nat) (currentId : N) : list string :=
  match n with
  | O => []
  | S n' =>
      let (id, currentId') := uniqueId currentId in
      id :: uniqueIds n' currentId'
  end.

Definition toTransitionConfigArray (event configLike : value) : value :=
  VArr
    (map (fun transitionLike =>
            if jstype_eqb (typeof transitionLike) TUndefined
               || jstype_eqb (typeof transitionLike) TString
               || isMachineNode transitionLike
            then VObj [("target", transitionLike); ("event", event)]
            else VObj (set_field "event" event (spread [] transitionLike)))
         (elements (toArrayStrict configLike))).

(** ** Notions used to state the properties *)

(** Modelled from the spec: [pathJoin], which the specification uses for
    the serialisation of a path and the sources do not define: the
    segments joined with the delimiter between them. *)
Definition pathJoin (p : list string) (d : string) : string := join d p.

(** The value [pathToStateValue] builds, read off recursively. *)
Fixpoint nest (statePath : list value) : value :=
  match statePath with
  | [] => VObj []
  | x :: rest =>
      match rest with
      | [] => x
      | _ :: _ => VObj [(to_string x, nest rest)]
      end
  end.

(** A state value proper: an atomic name, or a compound whose mapping has
    at least one region and whose regions are state values proper. *)
Fixpoint inhabited (v : value) : bool :=
  match v with
  | VStr _ => true
  | VObj fields =>
      match fields with
      | [] => false
      | _ :: _ => forallb (fun kv => inhabited (snd kv)) fields
      end
  | _ => false
  end.

(** A sub-value that is empty or absent: falsy, or without own keys. *)
Definition empty_or_absent (subStateValue : value) : bool :=
  negb (truthy subStateValue) || no_own_keys subStateValue.

(** The keys of a record are pairwise distinct. *)
Definition distinct_keys (fields : list (string * value)) : Prop :=
  NoDup (map fst fields).

(** A state value as the types have it: a string, or a record of state
    values. *)
Fixpoint state_value (v : value) : bool :=
  match v with
  | VStr _ => true
  | VObj fields => forallb (fun kv => state_value (snd kv)) fields
  | _ => false
  end.

(** No segment contains the delimiter. *)
Definition free_of (d : string) (segments : list string) : Prop :=
  Forall (fun segment => includes segment d = false) segments.

(** The leaf paths of a state value as the specification words them: an
    atomic value is its own single path, and a compound value gives, key by
    key, the path [[key]] for an empty or absent sub-value and otherwise
    the leaf paths of the sub-value with the key in front. *)
Fixpoint leaf_paths (v : value) : list (list string) :=
  match v with
  | VStr name => [[name]]
  | VObj regions =>
      concat
        (map (fun kv =>
                if empty_or_absent (snd kv) then [[fst kv]]
                else map (cons (fst kv)) (leaf_paths (snd kv)))
             regions)
  | _ => [[]]
  end.

(** A tree of regions: under every key an atomic name, a tree of regions,
    or an empty or absent sub-value. *)
Fixpoint region_tree (v : value) : bool :=
  match v with
  | VStr _ => true
  | VObj regions =>
      forallb (fun kv => empty_or_absent (snd kv) || region_tree (snd kv))
              regions
  | _ => false
  end.

(** The values on which [to_string] is the conversion the code performs: a
    record with a [toString] property of its own is converted by that
    property, and an integer from [10^21] on is printed in exponent
    form. *)
Definition plainly_printed (v : value) : bool :=
  match v with
  | VNum n => (Z.abs n <? 10 ^ 21)%Z
  | VObj fields => negb (has_key "toString" fields)
  | _ => true
  end.

(** ** Strings: splitting and joining *)

Section SingleCharacterDelimiter.

Variable c : ascii.

Let d : string := String c "".

Lemma includes_cons (a : ascii) (s : string) :
  includes (String a s) d = false -> a <> c /\ includes s d = false.
Proof.
  unfold d. simpl. destruct (ascii_dec c a) as [->|Hne].
  - destruct s; discriminate.
  - simpl. intros H. split; [congruence | exact H].
Qed.

Lemma prefix_other (a : ascii) (s : string) :
  a <> c -> prefix d (String a s) = false.
Proof.
  intros Hne. unfold d. simpl.
  destruct (ascii_dec c a); [congruence | reflexivity].
Qed.

Lemma prefix_same (s : string) : prefix d (String c s) = true.
Proof.
  unfold d. simpl. destruct (ascii_dec c c); [|congruence].
  destruct s; reflexivity.
Qed.

Lemma split_by_clean (segment : string) :
  includes segment d = false -> split_by d 0 segment = [segment].
Proof.
  induction segment as [|a s IH]; intros H.
  - reflexivity.
  - apply includes_cons in H. destruct H as [Hne Hs].
    change (split_by d 0 (String a s))
      with (if prefix d (String a s)
            then "" :: split_by d (String.length d - 1) s
            else match split_by d 0 s with
                 | seg :: rest => String a seg :: rest
                 | [] => [String a ""]
                 end).
    rewrite (prefix_other a s Hne), (IH Hs). reflexivity.
Qed.

Lemma split_by_app (segment tl : string) :
  includes segment d = false ->
  split_by d 0 (segment ++ String c tl) = segment :: split_by d 0 tl.
Proof.
  induction segment as [|a s IH]; intros H.
  - change (split_by d 0 ("" ++ String c tl))
      with (if prefix d (String c tl)
            then "" :: split_by d (String.length d - 1) tl
            else match split_by d 0 tl with
                 | seg :: rest => String c seg :: rest
                 | [] => [String c ""]
                 end).
    rewrite prefix_same. reflexivity.
  - apply includes_cons in H. destruct H as [Hne Hs].
    change (split_by d 0 (String a s ++ String c tl))
      with (if prefix d (String a (s ++ String c tl))
            then "" :: split_by d (String.length d - 1) (s ++ String c tl)
            else match split_by d 0 (s ++ String c tl) with
                 | seg :: rest => String a seg :: rest
                 | [] => [String a ""]
                 end).
    rewrite (prefix_other a _ Hne), (IH Hs). reflexivity.
Qed.

Lemma split_join (p : list string) :
  p <> [] ->
  forallb (fun segment => negb (includes segment d)) p = true ->
  split (join d p) d = p.
Proof.
  intros Hp Hall.
  change (split (join d p) d) with (split_by d 0 (join d p)).
  induction p as [|x rest IH]; [congruence|].
  simpl in Hall. apply andb_true_iff in Hall. destruct Hall as [Hx Hrest].
  apply negb_true_iff in Hx.
  destruct rest as [|y rest'].
  - simpl. apply split_by_clean. exact Hx.
  - change (join d (x :: y :: rest'))
      with (x ++ String c (join d (y :: rest')))%string.
    rewrite (split_by_app x _ Hx). f_equal.
    apply IH; [discriminate | exact Hrest].
Qed.

End SingleCharacterDelimiter.

Lemma single_character (d : string) :
  String.length d = 1 -> exists c, d = String c "".
Proof.
  destruct d as [|c [|c' d']]; simpl; try discriminate.
  intros _. exists c. reflexivity.
Qed.

(** ** Paths *)

Lemma toStatePath_string (s delimiter : string) :
  toStatePath (VStr s) delimiter = Ret (VArr (map VStr (split s delimiter))).
Proof. reflexivity. Qed.

(** C9, as the specification states it, fails on the empty path: it joins
    to the empty string, which splits into one empty segment. *)
Lemma toStatePath_pathJoin_empty_path :
  forallb (fun segment => negb (includes segment ".")) [] = true
  /\ toStatePath (VStr (pathJoin [] ".")) "." = Ret (VArr [VStr ""])
  /\ toStatePath (VStr (pathJoin [] ".")) "." <> Ret (VArr (map VStr [])).
Proof. split; [reflexivity | split; [reflexivity | discriminate]]. Qed.

(** C9 (amended): for every non-empty path [p] and single-character
    delimiter [d] such that no segment of [p] contains [d], joining [p]
    with [d] and converting back with [toStatePath] and the same delimiter
    yields [p] again. *)
Theorem toStatePath_pathJoin_roundtrip (p : list string) (d : string) :
  p <> [] ->
  String.length d = 1 ->
  forallb (fun segment => negb (includes segment d)) p = true ->
  toStatePath (VStr (pathJoin p d)) d = Ret (VArr (map VStr p)).
Proof.
  intros Hp Hd Hall.
  destruct (single_character d Hd) as [c ->].
  rewrite toStatePath_string. unfold pathJoin.
  rewrite (split_join c p Hp Hall). reflexivity.
Qed.

Lemma toStatePath_pathJoin_roundtrip_witness :
  toStatePath (VStr (pathJoin ["a"; "b"; "c"] ".")) "."
  = Ret (VArr (map VStr ["a"; "b"; "c"])).
Proof.
  apply (toStatePath_pathJoin_roundtrip ["a"; "b"; "c"] ".");
    [discriminate | reflexivity | reflexivity].
Defined.

(** C4, as the specification states it, fails on a number and on a
    non-array object: both are stringified and split, not rejected. *)
Lemma toStatePath_number_and_object :
  toStatePath (VNum 5) "." = Ret (VArr [VStr "5"])
  /\ toStatePath (VObj [("a", VStr "b")]) "."
     = Ret (VArr [VStr "[object Object]"]).
Proof. split; reflexivity. Qed.

(** C4 (amended): [toStatePath] returns an array input as-is and a string
    input split on the delimiter; it raises a ParseError when the input is
    [undefined] or [null]; any other input that is converted by the
    built-in [toString] (a number, a boolean, a record without a
    [toString] property of its own) is not rejected: it is stringified and
    the string split on the delimiter. *)
Theorem toStatePath_cases (stateId : value) (delimiter : string) :
  (forall items, stateId = VArr items ->
     toStatePath stateId delimiter = Ret stateId)
  /\ (forall s, stateId = VStr s ->
        toStatePath stateId delimiter
        = Ret (VArr (map VStr (split s delimiter))))
  /\ (stateId = VUndefined \/ stateId = VNull ->
        toStatePath stateId delimiter = Throw (ParseError stateId))
  /\ (isArray stateId = false ->
      stateId <> VUndefined -> stateId <> VNull ->
      plainly_printed stateId = true ->
        toStatePath stateId delimiter
        = Ret (VArr (map VStr (split (to_string stateId) delimiter))))
  /\ (plainly_printed stateId = true ->
      (exists e, toStatePath stateId delimiter = Throw e) ->
        stateId = VUndefined \/ stateId = VNull).
Proof.
  split; [|split; [|split; [|split]]].
  - intros items ->. reflexivity.
  - intros s ->. reflexivity.
  - intros [-> | ->]; reflexivity.
  - intros Harr Hu Hn _. destruct stateId; try reflexivity; try congruence.
    discriminate.
  - intros _ [e He]. destruct stateId; try discriminate; auto.
Qed.

Lemma toStatePath_cases_witness :
  toStatePath (VStr "a.b") "." = Ret (VArr [VStr "a"; VStr "b"])
  /\ toStatePath VNull "." = Throw (ParseError VNull)
  /\ toStatePath (VNum 12) "." = Ret (VArr [VStr "12"]).
Proof.
  split; [|split].
  - exact (proj1 (proj2 (toStatePath_cases (VStr "a.b") ".")) "a.b" eq_refl).
  - apply (toStatePath_cases VNull "."). right. reflexivity.
  - apply (toStatePath_cases (VNum 12) ".");
      [reflexivity | discriminate | discriminate | reflexivity].
Defined.

(** ** Building a state value from a path *)

Lemma fill_marker_nest (rest pre : list value) (x : value) :
  rest <> [] ->
  fill_marker (pre ++ x :: rest) (length pre) (length rest)
  = [(to_string x, nest rest)].
Proof.
  revert pre x.
  induction rest as [|y rest' IH]; intros pre x Hrest; [congruence|].
  simpl length. simpl fill_marker.
  rewrite app_nth2 by lia. rewrite Nat.sub_diag. simpl nth.
  rewrite app_nth2 by lia.
  replace (length pre + 1 - length pre) with 1 by lia. simpl nth.
  rewrite length_app. simpl length.
  destruct rest' as [|z r]; simpl length.
  - destruct (Nat.eqb_spec (length pre) (length pre + 2 - 2)); [|lia].
    reflexivity.
  - destruct (Nat.eqb_spec (length pre) (length pre + S (S (S (length r))) - 2));
      [lia|].
    specialize (IH (pre ++ [x]) y).
    rewrite <- app_assoc in IH. simpl app in IH.
    rewrite length_app in IH. simpl length in IH.
    rewrite IH by discriminate. reflexivity.
Qed.

Lemma pathToStateValue_nest (statePath : list value) :
  pathToStateValue statePath = nest statePath.
Proof.
  unfold pathToStateValue.
  destruct statePath as [|x [|y rest]]; try reflexivity.
  change (VObj (fill_marker ([] ++ x :: y :: rest) (length (@nil value))
                           (length (y :: rest)))
          = nest (x :: y :: rest)).
  rewrite (fill_marker_nest (y :: rest) [] x) by discriminate.
  reflexivity.
Qed.

Lemma nest_inhabited (p : list string) :
  p <> [] -> inhabited (nest (map VStr p)) = true.
Proof.
  induction p as [|x rest IH]; [congruence|]. intros _.
  destruct rest as [|y rest']; [reflexivity|].
  change (inhabited (nest (map VStr (x :: y :: rest'))))
    with (inhabited (nest (map VStr (y :: rest'))) && true).
  rewrite IH by discriminate. reflexivity.
Qed.

(** C8, as the specification states it, fails on the empty list: the loop
    does not run and the empty object is returned. *)
Lemma pathToStateValue_empty_path :
  pathToStateValue (map VStr []) = VObj []
  /\ inhabited (pathToStateValue (map VStr [])) = false.
Proof. split; reflexivity. Qed.

(** C8 (amended): for every non-empty list of strings in which no segment
    before the last is ["__proto__"], the result of [pathToStateValue] is
    an atomic value or a compound value whose mapping has at least one key
    at every nesting level.  (Under the key ["__proto__"] the assignment
    of the loop goes to the prototype and adds no key; nothing is stated
    for such a path.) *)
Theorem pathToStateValue_inhabited (p : list string) :
  p <> [] -> ~ In "__proto__" (removelast p) ->
  inhabited (pathToStateValue (map VStr p)) = true.
Proof.
  intros Hp _. rewrite pathToStateValue_nest. apply nest_inhabited. exact Hp.
Qed.

Lemma pathToStateValue_inhabited_witness :
  inhabited (pathToStateValue (map VStr ["a"; "b"; "c"])) = true.
Proof.
  apply (pathToStateValue_inhabited ["a"; "b"; "c"]); [discriminate|].
  simpl. intros [H|[H|[]]]; discriminate.
Defined.

(** ** Records *)

Lemma lookup_set_field_same (k : string) (v : value)
  (fields : list (string * value)) :
  lookup k (set_field k v fields) = Some v.
Proof.
  induction fields as [|[k' v'] rest IH]; simpl.
  - rewrite String.eqb_refl. reflexivity.
  - destruct (String.eqb_spec k' k) as [->|Hne]; simpl.
    + rewrite String.eqb_refl. reflexivity.
    + destruct (String.eqb_spec k' k); [congruence | exact IH].
Qed.

Lemma lookup_set_field_other (k k0 : string) (v : value)
  (fields : list (string * value)) :
  k0 <> k -> lookup k (set_field k0 v fields) = lookup k fields.
Proof.
  intros Hne. induction fields as [|[k' v'] rest IH]; simpl.
  - destruct (String.eqb_spec k0 k); [congruence | reflexivity].
  - destruct (String.eqb_spec k' k0) as [->|Hne']; simpl.
    + destruct (String.eqb_spec k0 k); [congruence | reflexivity].
    + destruct (String.eqb_spec k' k); [reflexivity | exact IH].
Qed.

Lemma lookup_absent (k : string) (fields : list (string * value)) :
  ~ In k (map fst fields) -> lookup k fields = None.
Proof.
  induction fields as [|[k' v'] rest IH]; simpl; intros Hin.
  - reflexivity.
  - destruct (String.eqb_spec k' k) as [->|Hne].
    + exfalso. apply Hin. left. reflexivity.
    + apply IH. intros H. apply Hin. right. exact H.
Qed.

Lemma has_key_In (k : string) (fields : list (string * value)) :
  has_key k fields = true <-> In k (map fst fields).
Proof.
  unfold has_key. induction fields as [|[k' v'] rest IH]; simpl.
  - split; [discriminate | tauto].
  - destruct (String.eqb_spec k' k) as [->|Hne].
    + split; auto.
    + rewrite IH. split; [auto | intros [H|H]; [congruence | exact H]].
Qed.

Lemma lookup_assign (entries init : list (string * value)) (k : string) :
  distinct_keys entries ->
  lookup k (fold_left (fun acc kv => set_field (fst kv) (snd kv) acc)
                      entries init)
  = match lookup k entries with
    | Some v => Some v
    | None => lookup k init
    end.
Proof.
  unfold distinct_keys. revert init.
  induction entries as [|[k0 v0] rest IH]; intros init Hnd; simpl.
  - reflexivity.
  - simpl in Hnd. inversion Hnd as [|? ? Hnotin Hnd']; subst.
    rewrite (IH _ Hnd').
    destruct (String.eqb_spec k0 k) as [->|Hne].
    + rewrite (lookup_absent k rest Hnotin).
      apply lookup_set_field_same.
    + rewrite (lookup_set_field_other k k0 v0 init Hne). reflexivity.
Qed.

(** ** Events *)

(** C5, as the specification states it, fails on an object event without
    a [type] field: reading the field gives [undefined], nothing is
    raised. *)
Lemma getEventType_object_without_type :
  getEventType (VObj [("payload", VNum 1)]) = Ret VUndefined.
Proof. reflexivity. Qed.

(** C5 (amended): [getEventType] returns the stringified input for string
    and number events and the [type] field for structured events; it
    raises an EventTypeError exactly when the event is [undefined] or
    [null]; an object event that lacks a [type] field yields [undefined]
    and no error. *)
Theorem getEventType_cases (event : value) :
  (typeof event = TString \/ typeof event = TNumber ->
     getEventType event = Ret (VStr (to_string event)))
  /\ (forall fields t, event = VObj fields -> lookup "type" fields = Some t ->
        getEventType event = Ret t)
  /\ (forall fields, event = VObj fields -> lookup "type" fields = None ->
        getEventType event = Ret VUndefined)
  /\ ((exists e, getEventType event = Throw e)
      <-> event = VUndefined \/ event = VNull)
  /\ (event = VUndefined \/ event = VNull ->
        getEventType event = Throw EventTypeError).
Proof.
  split; [|split; [|split; [|split; [split|]]]].
  - intros [H|H]; destruct event; try discriminate; reflexivity.
  - intros fields t -> Ht. unfold getEventType. simpl. rewrite Ht. reflexivity.
  - intros fields -> Ht. unfold getEventType. simpl. rewrite Ht. reflexivity.
  - intros [e He]. destruct event; try discriminate; auto.
  - intros [-> | ->]; eexists; reflexivity.
  - intros [-> | ->]; reflexivity.
Qed.

Lemma getEventType_cases_witness :
  getEventType (VNum 7) = Ret (VStr "7")
  /\ getEventType (VObj [("type", VStr "TICK"); ("n", VNum 1)])
     = Ret (VStr "TICK")
  /\ getEventType (VObj []) = Ret VUndefined
  /\ getEventType VUndefined = Throw EventTypeError.
Proof.
  split; [|split; [|split]].
  - apply (getEventType_cases (VNum 7)). right. reflexivity.
  - exact (proj1 (proj2 (getEventType_cases
                           (VObj [("type", VStr "TICK"); ("n", VNum 1)])))
             _ _ eq_refl eq_refl).
  - exact (proj1 (proj2 (proj2 (getEventType_cases (VObj []))))
             _ eq_refl eq_refl).
  - apply (getEventType_cases VUndefined). left. reflexivity.
Defined.

(** C6, as the specification states it, fails on a number event: it is
    returned as it is, not turned into a structured event. *)
Lemma toEventObject_number :
  toEventObject (VNum 5) (VObj [("x", VNum 1)]) = VNum 5
  /\ typeof (toEventObject (VNum 5) (VObj [("x", VNum 1)])) <> TObject.
Proof. split; [reflexivity | discriminate]. Qed.

(** C6 (amended): [toEventObject] turns every string raw event into the
    structured event [{ type: event, ...payload }], merging the optional
    payload, and returns every structured event unchanged with the payload
    argument ignored. *)
Theorem toEventObject_cases (event payload : value) :
  (forall s, event = VStr s -> distinct_keys (own_entries payload) ->
     exists fields,
       toEventObject event payload = VObj fields
       /\ forall k,
            lookup k fields
            = match lookup k (own_entries payload) with
              | Some v => Some v
              | None => if k =? "type" then Some (VStr s) else None
              end)
  /\ (forall s, event = VStr s -> payload = VUndefined ->
        toEventObject event payload = VObj [("type", VStr s)])
  /\ (typeof event = TObject -> toEventObject event payload = event).
Proof.
  split; [|split].
  - intros s -> Hnd. eexists. split; [reflexivity|].
    intros k. unfold spread. rewrite (lookup_assign _ _ k Hnd).
    simpl. rewrite String.eqb_sym. reflexivity.
  - intros s -> ->. reflexivity.
  - destruct event; try discriminate; reflexivity.
Qed.

Lemma toEventObject_cases_witness :
  (exists fields,
     toEventObject (VStr "TICK") (VObj [("n", VNum 1)]) = VObj fields
     /\ forall k,
          lookup k fields
          = match lookup k [("n", VNum 1)] with
            | Some v => Some v
            | None => if k =? "type" then Some (VStr "TICK") else None
            end)
  /\ toEventObject (VObj [("type", VStr "TICK")]) (VObj [("n", VNum 1)])
     = VObj [("type", VStr "TICK")].
Proof.
  split.
  - apply (proj1 (toEventObject_cases (VStr "TICK") (VObj [("n", VNum 1)]))
             "TICK" eq_refl).
    unfold distinct_keys. simpl.
    constructor; [intros [] | constructor].
  - apply (toEventObject_cases (VObj [("type", VStr "TICK")])). reflexivity.
Defined.

(** ** Targets *)

(** C7, as the specification states it, fails on the empty array: it is
    neither [undefined] nor the sentinel, and it is returned as it is, an
    array of length zero. *)
Lemma normalizeTarget_empty_array :
  VArr [] <> VUndefined
  /\ VArr [] <> VStr ""
  /\ normalizeTarget "" (VArr []) = VArr []
  /\ length (elements (normalizeTarget "" (VArr []))) = 0.
Proof.
  split; [discriminate | split; [discriminate | split; reflexivity]].
Qed.

(** C7 (amended): [normalizeTarget] maps [undefined] and the reserved
    targetless sentinel to [undefined]; it returns every array input as it
    is and wraps every other input in a one-element array, so the result is
    an array of length at least one unless the input is the empty array. *)
Theorem normalizeTarget_cases (TARGETLESS_KEY : string) (target : value) :
  (target = VUndefined \/ target = VStr TARGETLESS_KEY ->
     normalizeTarget TARGETLESS_KEY target = VUndefined)
  /\ (forall items, target = VArr items ->
        normalizeTarget TARGETLESS_KEY target = VArr items)
  /\ (target <> VUndefined -> target <> VStr TARGETLESS_KEY ->
      isArray target = false ->
        normalizeTarget TARGETLESS_KEY target = VArr [target])
  /\ (target <> VUndefined -> target <> VStr TARGETLESS_KEY ->
      target <> VArr [] ->
        exists items,
          normalizeTarget TARGETLESS_KEY target = VArr items
          /\ 1 <= length items).
Proof.
  assert (Hstr : forall s, VStr s <> VStr TARGETLESS_KEY ->
                           (s =? TARGETLESS_KEY) = false).
  { intros s Hs. destruct (String.eqb_spec s TARGETLESS_KEY);
      [congruence | reflexivity]. }
  split; [|split; [|split]].
  - intros [-> | ->]; unfold normalizeTarget; simpl.
    + reflexivity.
    + rewrite String.eqb_refl. reflexivity.
  - intros items ->. reflexivity.
  - intros Hu Hk Harr. unfold normalizeTarget.
    destruct target; try congruence; try reflexivity.
    + simpl. rewrite (Hstr _ Hk). reflexivity.
    + discriminate.
  - intros Hu Hk He. unfold normalizeTarget.
    destruct target as [| | b | n | s | items | fields | f];
      try congruence;
      try (eexists; split; [reflexivity | simpl; lia]).
    + simpl. rewrite (Hstr _ Hk). eexists. split; [reflexivity | simpl; lia].
    + destruct items as [|x items']; [congruence|].
      eexists. split; [reflexivity | simpl; lia].
Qed.

Lemma normalizeTarget_cases_witness :
  normalizeTarget "" (VStr "") = VUndefined
  /\ normalizeTarget "" (VStr "idle") = VArr [VStr "idle"]
  /\ normalizeTarget "" (VArr [VStr "a"; VStr "b"])
     = VArr [VStr "a"; VStr "b"].
Proof.
  split; [|split].
  - apply (normalizeTarget_cases "" (VStr "")). right. reflexivity.
  - apply (normalizeTarget_cases "" (VStr "idle"));
      [discriminate | discriminate | reflexivity].
  - exact (proj1 (proj2 (normalizeTarget_cases ""
                           (VArr [VStr "a"; VStr "b"]))) _ eq_refl).
Defined.

(** ** Wrapping events *)

Lemma toSCXMLEvent_wrapped (event scxmlEvent : value) :
  isSCXMLEvent event = Ret true -> toSCXMLEvent event scxmlEvent = Ret event.
Proof. intros H. unfold toSCXMLEvent. rewrite H. reflexivity. Qed.

Lemma toSCXMLEvent_wraps (event : value) :
  forall w, toSCXMLEvent event VUndefined = Ret w -> isSCXMLEvent w = Ret true.
Proof.
  intros w. unfold toSCXMLEvent.
  destruct (isSCXMLEvent event) as [[|]|e] eqn:Hw; simpl.
  - intros [= <-]. exact Hw.
  - destruct (get (toEventObject event VUndefined) "type") as [name|e];
      simpl; [|discriminate].
    intros [= <-]. reflexivity.
  - discriminate.
Qed.

(** C2: wrapping is the identity on wrapped events.  For every event that
    satisfies [isSCXMLEvent], [toSCXMLEvent] returns the event itself,
    whatever the overrides; hence wrapping twice is wrapping once, for
    every raw or wrapped event (an event on which wrapping throws makes
    both sides throw the same exception). *)
Theorem toSCXMLEvent_idempotent :
  (forall event scxmlEvent,
     isSCXMLEvent event = Ret true ->
     toSCXMLEvent event scxmlEvent = Ret event)
  /\ (forall event,
        (w <- toSCXMLEvent event VUndefined ;; toSCXMLEvent w VUndefined)
        = toSCXMLEvent event VUndefined).
Proof.
  split.
  - exact toSCXMLEvent_wrapped.
  - intros event.
    destruct (toSCXMLEvent event VUndefined) as [w|e] eqn:Hw; simpl.
    + apply toSCXMLEvent_wrapped. apply (toSCXMLEvent_wraps event w Hw).
    + reflexivity.
Qed.

Lemma toSCXMLEvent_idempotent_witness :
  toSCXMLEvent
    (VObj [("name", VStr "TICK"); ("data", VObj [("type", VStr "TICK")]);
           ("$$type", VStr "scxml"); ("type", VStr "internal")])
    (VObj [("type", VStr "external")])
  = Ret (VObj [("name", VStr "TICK"); ("data", VObj [("type", VStr "TICK")]);
               ("$$type", VStr "scxml"); ("type", VStr "internal")]).
Proof.
  apply (proj1 toSCXMLEvent_idempotent). reflexivity.
Defined.

(** ** Observers *)

Lemma weight_positive (v : value) : 1 <= weight v.
Proof. destruct v; simpl; lia. Qed.

(** C10, as stated, fails on a first argument that is neither an object
    nor a function: the record is built for it too. *)
Lemma toObserver_builds_for_undefined :
  toObserver VUndefined VUndefined VUndefined
  = VObj [("next", VUndefined); ("error", noop); ("complete", noop)]
  /\ typeof VUndefined <> TFunction.
Proof. split; [reflexivity | discriminate]. Qed.

(** C10 (amended): [toObserver] returns every object-typed first argument
    as it is, also a record without [error] or [complete] fields, with no
    default filled in; for every other first argument, a function or not,
    it builds the record [{next, error, complete}], a missing [error] or
    [complete] defaulting to the no-op. *)
Theorem toObserver_cases (nextHandler errorHandler completionHandler : value) :
  (typeof nextHandler = TObject ->
     toObserver nextHandler errorHandler completionHandler = nextHandler)
  /\ (typeof nextHandler <> TObject ->
        toObserver nextHandler errorHandler completionHandler
        = VObj [("next", nextHandler);
                ("error", if truthy errorHandler then errorHandler else noop);
                ("complete", if truthy completionHandler
                             then completionHandler else noop)])
  /\ toObserver (VObj [("next", noop)]) VUndefined VUndefined
     = VObj [("next", noop)].
Proof.
  assert (Hbuilt : typeof nextHandler <> TObject ->
            toObserver nextHandler errorHandler completionHandler
            = VObj [("next", nextHandler);
                    ("error", if truthy errorHandler then errorHandler
                              else noop);
                    ("complete", if truthy completionHandler
                                 then completionHandler else noop)]).
  { intros H. unfold toObserver.
    destruct (jstype_eqb (typeof nextHandler) TObject) eqn:Hty;
      [|reflexivity].
    destruct (typeof nextHandler); try discriminate. congruence. }
  split; [|split].
  - intros H. unfold toObserver. rewrite H. reflexivity.
  - exact Hbuilt.
  - reflexivity.
Qed.

Lemma toObserver_cases_witness :
  toObserver (VObj [("next", noop); ("error", noop)]) noop VUndefined
  = VObj [("next", noop); ("error", noop)]
  /\ toObserver noop VUndefined VUndefined
     = VObj [("next", noop); ("error", noop); ("complete", noop)].
Proof.
  split.
  - apply (toObserver_cases (VObj [("next", noop); ("error", noop)])).
    reflexivity.
  - apply (toObserver_cases noop VUndefined VUndefined). discriminate.
Defined.

(** ** Leaf paths *)

Lemma lookup_distinct (fields : list (string * value)) (k : string) (v : value) :
  distinct_keys fields -> In (k, v) fields -> lookup k fields = Some v.
Proof.
  unfold distinct_keys. induction fields as [|[k' v'] rest IH]; simpl.
  - intros _ [].
  - intros Hnd Hin. inversion Hnd as [|? ? Hnotin Hnd']; subst.
    destruct Hin as [[= -> ->] | Hin].
    + rewrite String.eqb_refl. reflexivity.
    + destruct (String.eqb_spec k' k) as [->|Hne].
      * exfalso. apply Hnotin. apply (in_map fst) in Hin. exact Hin.
      * apply IH; assumption.
Qed.

(** On a record, walking the entries is walking [keys(stateValue)] and
    reading [stateValue[key]] at each key, as the source does. *)
Lemma toStatePaths_by_key (fields : list (string * value)) :
  distinct_keys fields ->
  toStatePaths (VObj fields)
  = flatten
      (map (fun key =>
              let subStateValue :=
                match lookup key fields with
                | Some x => x
                | None => VUndefined
                end in
              if isChildless subStateValue then [[key]]
              else map (fun subPath => key :: subPath)
                       (toStatePaths subStateValue))
           (map fst fields)).
Proof.
  intros Hnd.
  change (toStatePaths (VObj fields))
    with (flatten
            (map (fun kv =>
                    let key := fst kv in
                    let subStateValue := snd kv in
                    if isChildless subStateValue then [[key]]
                    else map (fun subPath => key :: subPath)
                             (toStatePaths subStateValue))
                 fields)).
  rewrite map_map. f_equal. apply map_ext_in.
  intros [key sub] Hin. simpl.
  rewrite (lookup_distinct fields key sub Hnd Hin). reflexivity.
Qed.

Lemma isChildless_paths (key : string) (subStateValue : value) :
  (if isChildless subStateValue then [[key]]
   else map (fun subPath => key :: subPath) (toStatePaths subStateValue))
  = (if empty_or_absent subStateValue then [[key]]
     else map (cons key) (toStatePaths subStateValue)).
Proof.
  destruct subStateValue as [| | b | n | s | items | fields | f];
    try reflexivity.
  destruct s as [|a s']; reflexivity.
Qed.

Lemma field_weight (k : string) (sub : value)
  (fields : list (string * value)) :
  In (k, sub) fields ->
  weight sub <= list_sum (map (fun kv => weight (snd kv)) fields).
Proof.
  induction fields as [|[k' v'] rest IH]; simpl; [intros []|].
  intros [[= -> ->]|H]; [lia | specialize (IH H); lia].
Qed.

Lemma toStatePaths_leaf_paths (n : nat) :
  forall v,
    weight v <= n -> region_tree v = true -> truthy v = true ->
    toStatePaths v = leaf_paths v.
Proof.
  induction n as [|n IH]; intros v Hw Htree Htruthy.
  - pose proof (weight_positive v). lia.
  - destruct v as [| | b | k | s | items | fields | f]; try discriminate.
    + simpl in *. rewrite Htruthy. reflexivity.
    + change (toStatePaths (VObj fields))
        with (concat
                (map (fun kv =>
                        let key := fst kv in
                        let subStateValue := snd kv in
                        if isChildless subStateValue then [[key]]
                        else map (fun subPath => key :: subPath)
                                 (toStatePaths subStateValue))
                     fields)).
      simpl leaf_paths. f_equal. apply map_ext_in.
      intros [key sub] Hin. cbv zeta. simpl fst. simpl snd.
      rewrite isChildless_paths.
      destruct (empty_or_absent sub) eqn:Hempty; [reflexivity|].
      f_equal. apply IH.
      * pose proof (field_weight key sub fields Hin). simpl in Hw. lia.
      * simpl in Htree. rewrite forallb_forall in Htree.
        specialize (Htree (key, sub) Hin). simpl in Htree.
        rewrite Hempty in Htree. exact Htree.
      * unfold empty_or_absent in Hempty.
        apply orb_false_iff in Hempty. destruct Hempty as [Hfalsy _].
        apply negb_false_iff in Hfalsy. exact Hfalsy.
Qed.

(** C3: [toStatePaths] enumerates exactly the active leaf paths.  On a
    compound value it emits, for each region key whose sub-value is empty
    or absent, the single path [[key]], and otherwise the leaf paths of the
    sub-value with the key prepended to each, concatenated across the keys
    in iteration order; on every tree of regions these are the leaf paths
    as the specification words them, an atomic leaf [name] under [key]
    giving [[key; name]].  Two sibling leaves give two paths, a nested
    leaf gives one path of two segments, and [undefined] gives the single
    empty path. *)
Theorem toStatePaths_compound :
  (forall fields,
     toStatePaths (VObj fields)
     = concat
         (map (fun '(key, subStateValue) =>
                 if empty_or_absent subStateValue then [[key]]
                 else map (cons key) (toStatePaths subStateValue))
              fields))
  /\ (forall fields,
        region_tree (VObj fields) = true ->
        toStatePaths (VObj fields) = leaf_paths (VObj fields))
  /\ (forall key name,
        name <> "" -> toStatePaths (VObj [(key, VStr name)]) = [[key; name]])
  /\ toStatePaths (VObj [("a", VObj []); ("b", VObj [])]) = [["a"]; ["b"]]
  /\ toStatePaths (VObj [("a", VObj [("b", VObj [])])]) = [["a"; "b"]]
  /\ toStatePaths (VObj [("a", VObj [("b", VStr "c")]); ("d", VStr "e")])
     = [["a"; "b"; "c"]; ["d"; "e"]]
  /\ toStatePaths VUndefined = [[]].
Proof.
  split; [|split; [|split; [|split; [|split; [|split]]]]]; try reflexivity.
  - intros fields.
    change (toStatePaths (VObj fields))
      with (flatten
              (map (fun kv =>
                      let key := fst kv in
                      let subStateValue := snd kv in
                      if isChildless subStateValue then [[key]]
                      else map (fun subPath => key :: subPath)
                               (toStatePaths subStateValue))
                   fields)).
    unfold flatten. f_equal. apply map_ext.
    intros [key subStateValue]. simpl. apply isChildless_paths.
  - intros fields Htree.
    apply (toStatePaths_leaf_paths (weight (VObj fields)));
      [apply le_n | exact Htree | reflexivity].
  - intros key name Hname.
    rewrite (toStatePaths_leaf_paths (weight (VObj [(key, VStr name)])));
      [|apply le_n | simpl; rewrite orb_true_r; reflexivity | reflexivity].
    simpl. destruct name; [congruence | reflexivity].
Qed.

Lemma toStatePaths_compound_witness :
  toStatePaths (VObj [("a", VStr "b"); ("c", VObj [])])
  = leaf_paths (VObj [("a", VStr "b"); ("c", VObj [])])
  /\ toStatePaths (VObj [("a", VStr "b")]) = [["a"; "b"]].
Proof.
  split.
  - apply (proj1 (proj2 toStatePaths_compound)). reflexivity.
  - apply (proj1 (proj2 (proj2 toStatePaths_compound))). discriminate.
Defined.

(** ** Containment: the recursion of [matchesState] *)

Lemma lookup_present (k : string) (fields : list (string * value)) :
  In k (map fst fields) -> exists x, lookup k fields = Some x.
Proof.
  intros Hin. apply has_key_In in Hin. unfold has_key in Hin.
  destruct (lookup k fields) as [x|]; [exists x; reflexivity | discriminate].
Qed.

Lemma lookup_weight (k : string) (fields : list (string * value)) (x : value) :
  lookup k fields = Some x ->
  weight x <= list_sum (map (fun kv => weight (snd kv)) fields).
Proof.
  induction fields as [|[k' v'] rest IH]; simpl; [discriminate|].
  destruct (k' =? k).
  - intros [= ->]. lia.
  - intros H. specialize (IH H). lia.
Qed.

Lemma lookup_indexed_weight (k : string) (items : list value) (x : value) :
  forall i,
    lookup k (indexed_from i items) = Some x ->
    S (weight x) <= list_sum (map (fun y => S (weight y)) items).
Proof.
  induction items as [|y rest IH]; intros i; simpl; [discriminate|].
  destruct (string_of_nat i =? k).
  - intros [= ->]. lia.
  - intros H. specialize (IH _ H). lia.
Qed.

(** A property read off a value that is not a string is lighter than the
    value. *)
Lemma entry_lighter (v sub : value) (ks : list string) (key : string) :
  isString v = false -> keys v = Ret ks -> In key ks ->
  get v key = Ret sub -> weight sub < weight v.
Proof.
  intros Hstr Hks Hin Hget.
  destruct v as [| | b | n | s | items | fields | f];
    try discriminate;
    try (injection Hks as <-; contradiction).
  - injection Hks as <-. simpl in Hin.
    destruct (lookup_present _ _ Hin) as [x Hx].
    simpl in Hget. rewrite Hx in Hget. injection Hget as <-.
    apply lookup_indexed_weight in Hx. simpl. lia.
  - injection Hks as <-. simpl in Hin.
    destruct (lookup_present _ _ Hin) as [x Hx].
    simpl in Hget. rewrite Hx in Hget. injection Hget as <-.
    apply lookup_weight in Hx. simpl. lia.
Qed.

Lemma get_weight (v x : value) (k : string) :
  typeof v = TObject -> get v k = Ret x -> weight x <= weight v.
Proof.
  intros Hty Hget.
  destruct v as [| | b | n | s | items | fields | f]; try discriminate;
    simpl in Hget; injection Hget as <-.
  - destruct (lookup k (indexed_from 0 items)) as [x|] eqn:Hx.
    + apply lookup_indexed_weight in Hx. simpl. lia.
    + destruct (k =? "length"); simpl; lia.
  - destruct (lookup k fields) as [x|] eqn:Hx.
    + apply lookup_weight in Hx. simpl. lia.
    + simpl. lia.
Qed.

Lemma nest_weight (l : list value) :
  l <> [] -> weight (nest l) <= list_sum (map (fun x => S (weight x)) l).
Proof.
  induction l as [|y rest IH]; [congruence|]. intros _.
  destruct rest as [|z r].
  - simpl. lia.
  - change (weight (nest (y :: z :: r)))
      with (S (weight (nest (z :: r)) + 0)).
    specialize (IH ltac:(discriminate)).
    change (list_sum (map (fun x => S (weight x)) (y :: z :: r)))
      with (S (weight y) + list_sum (map (fun x => S (weight x)) (z :: r))).
    lia.
Qed.

Lemma nest_strings_weight (l : list string) :
  l <> [] ->
  weight (nest (map VStr l)) = length l + String.length (last l "").
Proof.
  induction l as [|y rest IH]; [congruence|]. intros _.
  destruct rest as [|z r].
  - reflexivity.
  - change (weight (nest (map VStr (y :: z :: r))))
      with (S (weight (nest (map VStr (z :: r))) + 0)).
    rewrite IH by discriminate.
    change (last (y :: z :: r) "") with (last (z :: r) "").
    simpl length. lia.
Qed.

Lemma last_length_le_sum (l : list string) :
  String.length (last l "") <= list_sum (map String.length l).
Proof.
  induction l as [|y rest IH]; [simpl; lia|].
  destruct rest as [|z r]; [simpl; lia|].
  change (last (y :: z :: r) "") with (last (z :: r) "").
  change (list_sum (map String.length (y :: z :: r)))
    with (String.length y + list_sum (map String.length (z :: r))).
  lia.
Qed.

Lemma split_by_total (d s : string) :
  forall skip,
    list_sum (map String.length (split_by d skip s))
    + length (split_by d skip s) <= S (String.length s).
Proof.
  induction s as [|a s' IH]; intros skip.
  - simpl. lia.
  - destruct skip as [|k].
    + change (split_by d 0 (String a s'))
        with (if prefix d (String a s')
              then "" :: split_by d (String.length d - 1) s'
              else match split_by d 0 s' with
                   | seg :: rest => String a seg :: rest
                   | [] => [String a ""]
                   end).
      destruct (prefix d (String a s')).
      * specialize (IH (String.length d - 1)). simpl in *. lia.
      * specialize (IH 0).
        destruct (split_by d 0 s') as [|seg rest]; simpl in *; lia.
    + specialize (IH k). simpl in *. lia.
Qed.

Lemma split_characters_span (l : list ascii) :
  length (map (fun a => String a "") l) - 1
  + String.length (last (map (fun a => String a "") l) "") <= length l.
Proof.
  induction l as [|a rest IH]; [simpl; lia|].
  destruct rest as [|b r]; [simpl; lia|].
  change (last (map (fun a => String a "") (a :: b :: r)) "")
    with (last (map (fun a => String a "") (b :: r)) "").
  simpl length in *. lia.
Qed.

Lemma length_list_ascii (s : string) :
  length (list_ascii_of_string s) = String.length s.
Proof. induction s as [|a s' IH]; simpl; [reflexivity | now rewrite IH]. Qed.

(** The segments of a split string, nested, are not heavier than the
    string. *)
Lemma split_span (s d : string) :
  length (split s d) - 1 + String.length (last (split s d) "")
  <= String.length s.
Proof.
  destruct d as [|c d'].
  - unfold split. rewrite <- (length_list_ascii s).
    apply split_characters_span.
  - unfold split.
    pose proof (split_by_total (String c d') s 0) as Htotal.
    pose proof (last_length_le_sum (split_by (String c d') 0 s)) as Hlast.
    destruct (split_by (String c d') 0 s) as [|h t]; [simpl; lia|].
    simpl length in *. lia.
Qed.

Lemma toStateValue_cases (v p : value) (delimiter : string) :
  toStateValue v delimiter = Ret p ->
  (typeof v = TObject /\ get v "value" = Ret p)
  \/ (exists items, v = VArr items /\ p = nest items)
  \/ (exists s, v = VStr s /\ p = nest (map VStr (split s delimiter)))
  \/ (isString v = false /\ p = v).
Proof.
  unfold toStateValue.
  destruct (isStateLike v) as [[|]|e] eqn:Hlike; simpl; [| |discriminate].
  - intros Hget. left. split; [|exact Hget].
    destruct v; try reflexivity; discriminate.
  - destruct v as [| | b | n | s | items | fields | f]; simpl;
      intros [= <-];
      try (right; right; right; split; reflexivity).
    + right. right. left. exists s. split; [reflexivity|].
      apply pathToStateValue_nest.
    + right. left. exists items. split; [reflexivity|].
      apply pathToStateValue_nest.
Qed.

(** What [matchesState] recurses on is lighter than its first argument. *)
Lemma recursion_lighter (parent p sub : value) (delimiter key : string)
  (ks : list string) :
  toStateValue parent delimiter = Ret p ->
  isString p = false -> keys p = Ret ks -> In key ks ->
  get p key = Ret sub ->
  weight sub < weight parent.
Proof.
  intros Hnorm Hstr Hks Hin Hget.
  destruct (toStateValue_cases _ _ _ Hnorm)
    as [[Hty Hvalue] | [(items & -> & ->) | [(s & -> & ->) | [_ ->]]]].
  - pose proof (get_weight _ _ _ Hty Hvalue).
    pose proof (entry_lighter _ _ _ _ Hstr Hks Hin Hget). lia.
  - destruct items as [|x [|y r]].
    + injection Hks as <-. contradiction.
    + pose proof (entry_lighter _ _ _ _ Hstr Hks Hin Hget).
      simpl in *. lia.
    + change (nest (x :: y :: r))
        with (VObj [(to_string x, nest (y :: r))]) in *.
      pose proof (nest_weight (y :: r) ltac:(discriminate)) as Hw.
      remember (nest (y :: r)) as inner eqn:Hinner.
      injection Hks as <-. destruct Hin as [<- | []].
      simpl in Hget. rewrite String.eqb_refl in Hget. injection Hget as <-.
      change (weight (VArr (x :: y :: r)))
        with (S (S (weight x)
                 + list_sum (map (fun x => S (weight x)) (y :: r)))).
      lia.
  - pose proof (split_span s delimiter) as Hspan.
    destruct (split s delimiter) as [|h [|y r]].
    + injection Hks as <-. contradiction.
    + discriminate.
    + change (nest (map VStr (h :: y :: r)))
        with (VObj [(h, nest (map VStr (y :: r)))]) in *.
      pose proof (nest_strings_weight (y :: r) ltac:(discriminate)) as Hw.
      remember (nest (map VStr (y :: r))) as inner eqn:Hinner.
      injection Hks as <-. destruct Hin as [<- | []].
      simpl in Hget. rewrite String.eqb_refl in Hget. injection Hget as <-.
      change (last (h :: y :: r) "") with (last (y :: r) "") in Hspan.
      simpl length in *. simpl weight. lia.
  - apply (entry_lighter _ _ _ _ Hstr Hks Hin Hget).
Qed.

Lemma every_ext_in {A : Type} (f g : A -> option (result bool)) (l : list A) :
  (forall x, In x l -> f x = g x) -> every f l = every g l.
Proof.
  induction l as [|x rest IH]; intros H; simpl; [reflexivity|].
  rewrite <- (H x (or_introl eq_refl)).
  rewrite IH by (intros y Hy; apply H; right; exact Hy).
  reflexivity.
Qed.

Lemma every_total {A : Type} (f : A -> option (result bool)) (l : list A) :
  (forall x, In x l -> f x <> None) -> every f l <> None.
Proof.
  induction l as [|x rest IH]; intros H; simpl; [discriminate|].
  pose proof (H x (or_introl eq_refl)) as Hx.
  destruct (f x) as [[[|]|e]|]; try discriminate; [|congruence].
  apply IH. intros y Hy. apply H. right. exact Hy.
Qed.

Ltac matchesState_cases parent child delimiter :=
  unfold matchesState_body;
  let Hp := fresh "Hp" in
  let Hks := fresh "Hks" in
  let Hstr := fresh "Hstr" in
  destruct (toStateValue parent delimiter) as [?p|?e] eqn:Hp;
    [|try reflexivity; try discriminate];
  destruct (toStateValue child delimiter) as [?c|?e];
    [|try reflexivity; try discriminate];
  destruct (isString c);
    [destruct (isString p); try reflexivity; try discriminate|];
  destruct (isString p) eqn:Hstr;
    [try reflexivity; try discriminate|];
  destruct (keys p) as [?ks|?e] eqn:Hks;
    [|try reflexivity; try discriminate].

Lemma matchesState_body_ext
  (recur1 recur2 : value -> value -> string -> option (result bool))
  (parent child : value) (delimiter : string) :
  (forall p c, weight p < weight parent ->
               recur1 p c STATE_DELIMITER = recur2 p c STATE_DELIMITER) ->
  matchesState_body recur1 parent child delimiter
  = matchesState_body recur2 parent child delimiter.
Proof.
  intros H. matchesState_cases parent child delimiter.
  apply every_ext_in. intros key Hin.
  destruct (js_in key c) as [[|]|e]; try reflexivity.
  destruct (get p key) as [sub|e] eqn:Hget; [|reflexivity].
  destruct (get c key) as [sub'|e]; [|reflexivity].
  apply H. apply (recursion_lighter _ _ _ _ _ _ Hp Hstr Hks Hin Hget).
Qed.

Lemma matchesState_body_total
  (recur : value -> value -> string -> option (result bool))
  (parent child : value) (delimiter : string) :
  (forall p c, weight p < weight parent ->
               recur p c STATE_DELIMITER <> None) ->
  matchesState_body recur parent child delimiter <> None.
Proof.
  intros H. matchesState_cases parent child delimiter.
  apply every_total. intros key Hin.
  destruct (js_in key c) as [[|]|e]; try discriminate.
  destruct (get p key) as [sub|e] eqn:Hget; [|discriminate].
  destruct (get c key) as [sub'|e]; [|discriminate].
  apply H. apply (recursion_lighter _ _ _ _ _ _ Hp Hstr Hks Hin Hget).
Qed.

(** Any fuel above the weight of the first argument gives the same
    result. *)
Lemma matchesState_fuel_stable (fuel : nat) :
  forall parent child delimiter,
    weight parent < fuel ->
    matchesState_fuel fuel parent child delimiter
    = matchesState parent child delimiter.
Proof.
  induction fuel as [fuel IH] using lt_wf_ind.
  intros parent child delimiter Hlt. unfold matchesState.
  destruct fuel as [|fuel']; [lia|].
  change (matchesState_body (matchesState_fuel fuel') parent child delimiter
          = matchesState_body (matchesState_fuel (weight parent))
              parent child delimiter).
  apply matchesState_body_ext. intros p c Hp.
  rewrite (IH fuel') by lia.
  rewrite (IH (weight parent)) by lia.
  reflexivity.
Qed.

(** [matchesState] satisfies the recursive definition of the source. *)
Lemma matchesState_equation (parent child : value) (delimiter : string) :
  matchesState parent child delimiter
  = matchesState_body matchesState parent child delimiter.
Proof.
  unfold matchesState at 1.
  change (matchesState_body (matchesState_fuel (weight parent))
            parent child delimiter
          = matchesState_body matchesState parent child delimiter).
  apply matchesState_body_ext. intros p c Hp.
  apply matchesState_fuel_stable. exact Hp.
Qed.

(** X20: the recursion of [matchesState] ends on every input, although it
    recurses on values it has normalised again and not on parts of its
    arguments: every call returns a Boolean or throws. *)
Lemma matchesState_total (parent child : value) (delimiter : string) :
  exists r, matchesState parent child delimiter = Some r.
Proof.
  enough (H : matchesState parent child delimiter <> None).
  { destruct (matchesState parent child delimiter) as [r|];
      [exists r; reflexivity | congruence]. }
  remember (weight parent) as n eqn:Hn.
  revert parent child delimiter Hn.
  induction n as [n IH] using lt_wf_ind.
  intros parent child delimiter ->.
  rewrite matchesState_equation.
  apply matchesState_body_total. intros p c Hp.
  apply (IH (weight p) Hp p c STATE_DELIMITER eq_refl).
Qed.

(** ** Containment: the rules for atomic values *)





(** ** Splitting and joining: the other direction *)

Lemma split_by_nonempty (d s : string) :
  forall skip, split_by d skip s <> [].
Proof.
  induction s as [|a s' IH]; intros skip; [discriminate|].
  destruct skip as [|k]; [|apply IH].
  change (split_by d 0 (String a s'))
    with (if prefix d (String a s')
          then "" :: split_by d (String.length d - 1) s'
          else match split_by d 0 s' with
               | seg :: rest => String a seg :: rest
               | [] => [String a ""]
               end).
  destruct (prefix d (String a s')); [discriminate|].
  destruct (split_by d 0 s'); discriminate.
Qed.

Lemma join_cons (d x : string) (l : list string) :
  l <> [] -> join d (x :: l) = (x ++ d ++ join d l)%string.
Proof. destruct l; [congruence | reflexivity]. Qed.

Lemma join_head (d : string) (a : ascii) (seg : string) (l : list string) :
  join d (String a seg :: l) = String a (join d (seg :: l)).
Proof. destruct l; reflexivity. Qed.

Lemma prefix_split (a b : string) :
  prefix a b = true -> exists r, b = (a ++ r)%string.
Proof.
  revert b. induction a as [|x a' IH]; intros b H.
  - exists b. reflexivity.
  - destruct b as [|y b']; [discriminate|]. simpl in H.
    destruct (ascii_dec x y) as [->|]; [|discriminate].
    destruct (IH _ H) as [r ->]. exists r. reflexivity.
Qed.

Lemma prefix_append (a b r : string) :
  prefix a b = true -> prefix a (b ++ r) = true.
Proof.
  revert b. induction a as [|x a' IH]; intros b H.
  - destruct (b ++ r)%string; reflexivity.
  - destruct b as [|y b']; [discriminate|]. simpl in *.
    destruct (ascii_dec x y); [apply IH; exact H | discriminate].
Qed.

(** Joining what [split_by] returns gives back what it read, the
    characters it was told to skip apart. *)
Lemma join_split_by (d0 : ascii) (d' : string) (s : string) :
  forall skip pre rest,
    s = (pre ++ rest)%string -> String.length pre = skip ->
    join (String d0 d') (split_by (String d0 d') skip s) = rest.
Proof.
  set (d := String d0 d').
  induction s as [|a s' IH]; intros skip pre rest Hs Hlen.
  - destruct pre; [|discriminate]. simpl in Hs. subst rest. reflexivity.
  - destruct skip as [|k].
    + destruct pre; [|discriminate]. simpl in Hs. subst rest.
      change (split_by d 0 (String a s'))
        with (if prefix d (String a s')
              then "" :: split_by d (String.length d - 1) s'
              else match split_by d 0 s' with
                   | seg :: rest => String a seg :: rest
                   | [] => [String a ""]
                   end).
      destruct (prefix d (String a s')) eqn:Hpre.
      * rewrite join_cons by apply split_by_nonempty.
        unfold d in Hpre. simpl in Hpre.
        destruct (ascii_dec d0 a) as [->|]; [|discriminate].
        destruct (prefix_split _ _ Hpre) as [r Hr].
        replace (String.length d - 1) with (String.length d')
          by (unfold d; simpl; lia).
        rewrite (IH (String.length d') d' r Hr eq_refl).
        unfold d. simpl. rewrite Hr. reflexivity.
      * pose proof (IH 0 "" s' eq_refl eq_refl) as Hrec.
        destruct (split_by d 0 s') as [|seg l] eqn:Hsplit.
        { exfalso. exact (split_by_nonempty d s' 0 Hsplit). }
        rewrite join_head, Hrec. reflexivity.
    + destruct pre as [|x pre']; [discriminate|].
      simpl in Hs, Hlen. injection Hs as -> ->. injection Hlen as Hlen.
      apply (IH k pre' rest eq_refl Hlen).
Qed.

Lemma join_characters (l : list ascii) :
  join "" (map (fun a => String a "") l) = string_of_list_ascii l.
Proof.
  induction l as [|a [|b r] IH]; try reflexivity.
  change (join "" (map (fun a => String a "") (a :: b :: r)))
    with (String a (join "" (map (fun a => String a "") (b :: r)))).
  rewrite IH. reflexivity.
Qed.

Lemma join_split (s d : string) : join d (split s d) = s.
Proof.
  destruct d as [|d0 d'].
  - unfold split. rewrite join_characters.
    apply string_of_list_ascii_of_string.
  - apply (join_split_by d0 d' s 0 "" s); reflexivity.
Qed.

(** The head segment of a split is a prefix of the string. *)
Lemma split_by_head (d0 : ascii) (d' s seg : string) (l : list string) :
  split_by (String d0 d') 0 s = seg :: l -> exists tl, s = (seg ++ tl)%string.
Proof.
  intros H. pose proof (join_split_by d0 d' s 0 "" s eq_refl eq_refl) as Hj.
  rewrite H in Hj. destruct l as [|y l'].
  - exists "". simpl in Hj. subst s.
    clear. induction seg; simpl; congruence.
  - rewrite join_cons in Hj by discriminate. eexists. symmetry. exact Hj.
Qed.

Lemma split_by_free (d0 : ascii) (d' s : string) :
  forall skip, free_of (String d0 d') (split_by (String d0 d') skip s).
Proof.
  set (d := String d0 d'). unfold free_of.
  induction s as [|a s' IH]; intros skip.
  - constructor; [reflexivity | constructor].
  - destruct skip as [|k]; [|apply IH].
    change (split_by d 0 (String a s'))
      with (if prefix d (String a s')
            then "" :: split_by d (String.length d - 1) s'
            else match split_by d 0 s' with
                 | seg :: rest => String a seg :: rest
                 | [] => [String a ""]
                 end).
    destruct (prefix d (String a s')) eqn:Hpre.
    + constructor; [reflexivity | apply IH].
    + pose proof (IH 0) as Hrec.
      destruct (split_by d 0 s') as [|seg l] eqn:Hsplit.
      { exfalso. exact (split_by_nonempty d s' 0 Hsplit). }
      inversion Hrec as [|? ? Hseg Hl]; subst.
      constructor; [|exact Hl].
      change (includes (String a seg) d)
        with (prefix d (String a seg) || includes seg d).
      rewrite Hseg, orb_false_r.
      destruct (prefix d (String a seg)) eqn:Hp; [|reflexivity].
      destruct (split_by_head d0 d' s' seg l Hsplit) as [tl ->].
      apply (prefix_append _ _ tl) in Hp. simpl in Hp.
      fold d in Hp. simpl in Hpre. congruence.
Qed.

Lemma split_by_whole (d0 : ascii) (d' segment : string) :
  includes segment (String d0 d') = false ->
  split_by (String d0 d') 0 segment = [segment].
Proof.
  set (d := String d0 d').
  induction segment as [|a s IH]; intros H; [reflexivity|].
  change (includes (String a s) d)
    with (prefix d (String a s) || includes s d) in H.
  apply orb_false_iff in H. destruct H as [Hpre Hs].
  change (split_by d 0 (String a s))
    with (if prefix d (String a s)
          then "" :: split_by d (String.length d - 1) s
          else match split_by d 0 s with
               | seg :: rest => String a seg :: rest
               | [] => [String a ""]
               end).
  rewrite Hpre, (IH Hs). reflexivity.
Qed.

(** X1: splitting a state id and joining the segments again gives the state
    id back, for every string and every delimiter (the empty one, which
    splits into characters, included). *)
Theorem toStatePath_join (s delimiter : string) :
  exists segments,
    toStatePath (VStr s) delimiter = Ret (VArr (map VStr segments))
    /\ join delimiter segments = s.
Proof.
  exists (split s delimiter). split; [reflexivity | apply join_split].
Qed.

(** X2: for a non-empty delimiter, the path [toStatePath] returns for a
    string is never empty and none of its segments contains the
    delimiter. *)
Theorem toStatePath_segments (s delimiter : string) :
  delimiter <> "" ->
  exists segments,
    toStatePath (VStr s) delimiter = Ret (VArr (map VStr segments))
    /\ segments <> []
    /\ free_of delimiter segments.
Proof.
  intros Hd. exists (split s delimiter).
  destruct delimiter as [|d0 d']; [congruence|].
  split; [reflexivity|]. split.
  - apply split_by_nonempty.
  - apply split_by_free.
Qed.

Lemma toStatePath_segments_witness :
  exists segments,
    toStatePath (VStr "a--b--") "--" = Ret (VArr (map VStr segments))
    /\ segments <> []
    /\ free_of "--" segments.
Proof. apply (toStatePath_segments "a--b--" "--"). discriminate. Defined.

(** ** Normalising state values *)

Lemma toStateValue_string (s delimiter : string) :
  toStateValue (VStr s) delimiter
  = Ret (nest (map VStr (split s delimiter))).
Proof.
  unfold toStateValue. simpl. rewrite pathToStateValue_nest. reflexivity.
Qed.

Lemma index_key_not (k : string) (c0 : ascii) (rest : string) :
  k = String c0 rest ->
  (forall digit, In digit (list_ascii_of_string "0123456789") -> c0 <> digit) ->
  forall i, string_of_nat i <> k.
Proof.
  intros -> Hc i. unfold string_of_nat.
  destruct (Nat.to_uint i); simpl; intros [= H _];
    (eapply Hc; [|symmetry; exact H]); simpl; tauto.
Qed.

Lemma indexed_lacks {A : Type} (k : string) (l : list A) :
  (forall i, string_of_nat i <> k) ->
  forall i, ~ In k (map fst (indexed_from i l)).
Proof.
  intros Hk. induction l as [|x rest IH]; intros i; simpl; [tauto|].
  intros [H|H]; [exact (Hk i H) | exact (IH (S i) H)].
Qed.

Lemma array_has_no_value (items : list value) :
  has_key "value" (indexed_from 0 items) = false.
Proof.
  destruct (has_key "value" (indexed_from 0 items)) eqn:H; [|reflexivity].
  apply has_key_In in H. exfalso. revert H. apply indexed_lacks.
  apply (index_key_not "value" "v" "alue" eq_refl).
  simpl. intros digit Hd. repeat (destruct Hd as [<-|Hd]; [discriminate|]).
  destruct Hd.
Qed.

Lemma toStateValue_array (items : list value) (delimiter : string) :
  toStateValue (VArr items) delimiter = Ret (nest items).
Proof.
  unfold toStateValue, isStateLike, and_then. simpl.
  rewrite array_has_no_value. simpl.
  rewrite pathToStateValue_nest. reflexivity.
Qed.

Lemma toStateValue_singleton (k delimiter : string) (v : value) :
  toStateValue (VObj [(k, v)]) delimiter = Ret (VObj [(k, v)]).
Proof.
  assert (Hlike : isStateLike (VObj [(k, v)]) = Ret false).
  { unfold isStateLike, and_then, js_in, has_key, lookup, bind.
    change (jstype_eqb (typeof (VObj [(k, v)])) TObject) with true.
    destruct (String.eqb_spec k "value") as [->|]; reflexivity. }
  unfold toStateValue. rewrite Hlike. reflexivity.
Qed.

Lemma toStateValue_empty_record (delimiter : string) :
  toStateValue (VObj []) delimiter = Ret (VObj []).
Proof. reflexivity. Qed.

Lemma nest_strings_state_value (l : list string) :
  state_value (nest (map VStr l)) = true.
Proof.
  induction l as [|x [|y r] IH]; try reflexivity.
  change (state_value (nest (map VStr (x :: y :: r))))
    with (state_value (nest (map VStr (y :: r))) && true).
  rewrite IH. reflexivity.
Qed.

(** X3: for a non-empty delimiter, [toStateValue] turns every string none
    of whose segments before the last is ["__proto__"] into a state value
    proper: an atomic name, or a chain of compound values none of which
    has an empty mapping. *)
Theorem toStateValue_string_inhabited (s delimiter : string) :
  delimiter <> "" ->
  ~ In "__proto__" (removelast (split s delimiter)) ->
  exists v, toStateValue (VStr s) delimiter = Ret v /\ inhabited v = true.
Proof.
  intros Hd _. rewrite toStateValue_string. eexists. split; [reflexivity|].
  apply nest_inhabited.
  destruct delimiter as [|d0 d']; [congruence|].
  apply split_by_nonempty.
Qed.

Lemma toStateValue_string_inhabited_witness :
  exists v, toStateValue (VStr "a.b.c") "." = Ret v /\ inhabited v = true.
Proof.
  apply (toStateValue_string_inhabited "a.b.c" "."); [discriminate|].
  simpl. intros [H|[H|[]]]; discriminate.
Defined.

Lemma toStateValue_nest_strings (l : list string) (delimiter : string) :
  (forall segment, l = [segment] -> split segment delimiter = [segment]) ->
  toStateValue (nest (map VStr l)) delimiter = Ret (nest (map VStr l)).
Proof.
  intros Hone. destruct l as [|x [|y r]].
  - reflexivity.
  - simpl. rewrite toStateValue_string, (Hone x eq_refl). reflexivity.
  - apply toStateValue_singleton.
Qed.

(** X4: normalising a string is idempotent.  What [toStateValue] returns
    for a string is returned unchanged when normalised again with the same
    delimiter. *)
Theorem toStateValue_string_idempotent (s delimiter : string) :
  (v <- toStateValue (VStr s) delimiter ;; toStateValue v delimiter)
  = toStateValue (VStr s) delimiter.
Proof.
  rewrite toStateValue_string. simpl.
  apply toStateValue_nest_strings. intros segment Hseg.
  destruct delimiter as [|d0 d'].
  - unfold split in *.
    destruct (list_ascii_of_string s) as [|a [|b r]]; try discriminate.
    injection Hseg as <-. reflexivity.
  - unfold split in *.
    pose proof (split_by_free d0 d' s 0) as Hfree.
    rewrite Hseg in Hfree. inversion Hfree as [|? ? Hfree1 _]; subst.
    apply split_by_whole. exact Hfree1.
Qed.

(** ** Reading along a path *)

Lemma path_app (p q : list string) (object : value) :
  path (p ++ q) object = (reached <- path p object ;; path q reached).
Proof.
  revert object. induction p as [|prop rest IH]; intros object; simpl.
  - reflexivity.
  - destruct (get object prop) as [next|e]; simpl; [apply IH | reflexivity].
Qed.

(** X5: [path] composes and fails where a property is missing.  Reading
    along [p ++ q] is reading along [p] and then along [q]; on a record, a
    property that the record does not have and does not inherit gives
    [undefined] when read last, and reading on through it throws a
    [TypeError]. *)
Theorem path_composes (p q : list string) (object : value) :
  path (p ++ q) object = (reached <- path p object ;; path q reached)
  /\ (forall fields key,
        object = VObj fields -> lookup key fields = None ->
        named key object_prototype_names = false ->
        path [key] object = Ret VUndefined
        /\ forall next rest, path (key :: next :: rest) object = Throw TypeError).
Proof.
  split; [apply path_app|].
  intros fields key -> Hmiss _. simpl. rewrite Hmiss. simpl.
  split; reflexivity.
Qed.

Lemma path_composes_witness :
  path ["b"] (VObj [("a", VNum 1)]) = Ret VUndefined
  /\ path ["b"; "c"] (VObj [("a", VNum 1)]) = Throw TypeError.
Proof.
  destruct (proj2 (path_composes [] [] (VObj [("a", VNum 1)]))
              [("a", VNum 1)] "b" eq_refl eq_refl eq_refl)
    as [Hlast Hthrough].
  split; [exact Hlast | exact (Hthrough "c" [])].
Defined.

Lemma path_nest (p : list string) :
  p <> [] ->
  path (removelast p) (nest (map VStr p)) = Ret (VStr (last p "")).
Proof.
  induction p as [|x [|y r] IH]; [congruence | reflexivity |]. intros _.
  change (removelast (x :: y :: r)) with (x :: removelast (y :: r)).
  change (last (x :: y :: r) "") with (last (y :: r) "").
  change (nest (map VStr (x :: y :: r)))
    with (VObj [(x, nest (map VStr (y :: r)))]).
  change (path (x :: removelast (y :: r)) (VObj [(x, nest (map VStr (y :: r)))]))
    with (next <- get (VObj [(x, nest (map VStr (y :: r)))]) x ;;
          path (removelast (y :: r)) next).
  simpl get. rewrite String.eqb_refl. simpl bind.
  apply IH. discriminate.
Qed.

(** X6: the state value built from a path holds the last segment at the
    end of the segments before it: for a non-empty path in which no
    segment before the last is ["__proto__"], reading the value
    [pathToStateValue] returns along all but the last segment gives the
    last segment. *)
Theorem path_pathToStateValue (p : list string) :
  p <> [] -> ~ In "__proto__" (removelast p) ->
  path (removelast p) (pathToStateValue (map VStr p))
  = Ret (VStr (last p "")).
Proof.
  intros Hp _. rewrite pathToStateValue_nest. apply path_nest. exact Hp.
Qed.

Lemma path_pathToStateValue_witness :
  path (removelast ["a"; "b"; "c"]) (pathToStateValue (map VStr ["a"; "b"; "c"]))
  = Ret (VStr (last ["a"; "b"; "c"] "")).
Proof.
  apply (path_pathToStateValue ["a"; "b"; "c"]); [discriminate|].
  simpl. intros [H|[H|[]]]; discriminate.
Defined.

(** ** Leaf paths of built and of arbitrary values *)

Lemma isChildless_nest (x y : string) (r : list string) :
  isChildless (nest (map VStr (x :: r))) = false.
Proof. destruct r; reflexivity. Qed.

Lemma toStatePaths_record_one (key : string) (sub : value) :
  isChildless sub = false ->
  toStatePaths (VObj [(key, sub)])
  = map (fun subPath => key :: subPath) (toStatePaths sub).
Proof.
  intros H.
  change (toStatePaths (VObj [(key, sub)]))
    with ((if isChildless sub then [[key]]
           else map (fun subPath => key :: subPath) (toStatePaths sub))
          ++ []).
  rewrite H, app_nil_r. reflexivity.
Qed.

Lemma toStatePaths_nest (p : list string) :
  p <> [] -> last p "" <> "" ->
  toStatePaths (nest (map VStr p)) = [p].
Proof.
  induction p as [|x [|y r] IH]; [congruence | |]; intros _ Hlast.
  - simpl in Hlast. simpl. destruct x; [congruence | reflexivity].
  - change (nest (map VStr (x :: y :: r)))
      with (VObj [(x, nest (map VStr (y :: r)))]).
    rewrite toStatePaths_record_one by apply (isChildless_nest y y r).
    rewrite IH; [reflexivity | discriminate | exact Hlast].
Qed.

(** X7: enumerating the leaves of the value built from a path gives that
    path back, and nothing else: for every non-empty path whose last
    segment is not the empty string and in which no segment before the
    last is ["__proto__"], [toStatePaths(pathToStateValue(p))] is
    [[p]]. *)
Theorem toStatePaths_pathToStateValue (p : list string) :
  p <> [] -> last p "" <> "" -> ~ In "__proto__" (removelast p) ->
  toStatePaths (pathToStateValue (map VStr p)) = [p].
Proof.
  intros Hp Hlast _. rewrite pathToStateValue_nest.
  apply toStatePaths_nest; assumption.
Qed.

Lemma toStatePaths_pathToStateValue_witness :
  toStatePaths (pathToStateValue (map VStr ["a"; "b"; "c"]))
  = [["a"; "b"; "c"]].
Proof.
  apply (toStatePaths_pathToStateValue ["a"; "b"; "c"]);
    [discriminate | discriminate |].
  simpl. intros [H|[H|[]]]; discriminate.
Defined.

Lemma toStatePaths_record (fields : list (string * value)) :
  toStatePaths (VObj fields)
  = concat
      (map (fun kv =>
              if isChildless (snd kv) then [[fst kv]]
              else map (fun subPath => fst kv :: subPath)
                       (toStatePaths (snd kv)))
           fields).
Proof. reflexivity. Qed.

(** A sub-value that is not childless has at least one leaf path. *)
Lemma toStatePaths_nonempty (n : nat) :
  forall v, weight v <= n -> isChildless v = false -> toStatePaths v <> [].
Proof.
  induction n as [|n IH]; intros v Hw Hv.
  - pose proof (weight_positive v). lia.
  - destruct v as [| | b | k | s | items | fields | f]; try discriminate.
    + destruct b; discriminate.
    + unfold isChildless in Hv. simpl in Hv.
      destruct (k =? 0)%Z; discriminate.
    + simpl. destruct (negb (s =? "")); discriminate.
    + destruct items as [|x rest]; [discriminate|].
      change (toStatePaths (VArr (x :: rest)))
        with ((if isChildless x then [[string_of_nat 0]]
               else map (fun subPath => string_of_nat 0 :: subPath)
                        (toStatePaths x))
              ++ flatten
                   ((fix over_items (i : nat) (l : list value) {struct l} :=
                       match l with
                       | [] => []
                       | subStateValue :: rest =>
                           let key := string_of_nat i in
                           (if isChildless subStateValue then [[key]]
                            else map (fun subPath => key :: subPath)
                                     (toStatePaths subStateValue))
                           :: over_items (S i) rest
                       end) 1 rest)).
      destruct (isChildless x) eqn:Hx; [discriminate|].
      assert (Hne : toStatePaths x <> []).
      { apply IH; [simpl in Hw; lia | exact Hx]. }
      destruct (toStatePaths x); [congruence | discriminate].
    + destruct fields as [|[key sub] rest]; [discriminate|].
      rewrite toStatePaths_record. simpl.
      destruct (isChildless sub) eqn:Hsub; [discriminate|].
      assert (Hne : toStatePaths sub <> []).
      { apply IH; [simpl in Hw; lia | exact Hsub]. }
      destruct (toStatePaths sub); [congruence | discriminate].
Qed.

(** X8: [toStatePaths] drops no region and invents none.  On a compound
    value every leaf path starts with one of its region keys, and every
    region key starts at least one leaf path. *)
Theorem toStatePaths_regions (fields : list (string * value)) :
  (forall leaf,
     In leaf (toStatePaths (VObj fields)) ->
     exists key rest, leaf = key :: rest /\ In key (map fst fields))
  /\ (forall key,
        In key (map fst fields) ->
        exists rest, In (key :: rest) (toStatePaths (VObj fields))).
Proof.
  rewrite toStatePaths_record. split.
  - intros leaf Hin. apply in_concat in Hin.
    destruct Hin as (paths & Hpaths & Hleaf).
    apply in_map_iff in Hpaths. destruct Hpaths as ([key sub] & <- & Hkv).
    simpl in Hleaf. exists key.
    destruct (isChildless sub).
    + destruct Hleaf as [<-|[]]. exists [].
      split; [reflexivity | apply (in_map fst _ _ Hkv)].
    + apply in_map_iff in Hleaf. destruct Hleaf as (rest & <- & _).
      exists rest. split; [reflexivity | apply (in_map fst _ _ Hkv)].
  - intros key Hin. apply in_map_iff in Hin.
    destruct Hin as ([key' sub] & Hkey & Hkv). simpl in Hkey. subst key'.
    destruct (isChildless sub) eqn:Hsub.
    + exists []. apply in_concat. exists [[key]]. split; [|left; reflexivity].
      apply in_map_iff. exists (key, sub). simpl. rewrite Hsub. auto.
    + pose proof (toStatePaths_nonempty (weight sub) sub (le_n _) Hsub) as Hne.
      destruct (toStatePaths sub) as [|rest others] eqn:Hpaths; [congruence|].
      exists rest. apply in_concat.
      exists (map (fun subPath => key :: subPath) (rest :: others)).
      split; [|left; reflexivity].
      apply in_map_iff. exists (key, sub). simpl. rewrite Hsub, Hpaths. auto.
Qed.

(** ** Containment: reflexivity and ancestors *)

Lemma every_all_true {A : Type} (f : A -> option (result bool)) (l : list A) :
  (forall x, In x l -> f x = Some (Ret true)) -> every f l = Some (Ret true).
Proof.
  induction l as [|x rest IH]; intros H; simpl; [reflexivity|].
  rewrite (H x (or_introl eq_refl)).
  apply IH. intros y Hy. apply H. right. exact Hy.
Qed.

Lemma lookup_state_value (k : string) (fields : list (string * value))
  (x : value) :
  forallb (fun kv => state_value (snd kv)) fields = true ->
  lookup k fields = Some x -> state_value x = true.
Proof.
  induction fields as [|[k' v'] rest IH]; simpl; [discriminate|].
  intros Hall. apply andb_true_iff in Hall. destruct Hall as [Hv Hrest].
  destruct (k' =? k); [intros [= <-]; exact Hv | apply IH; exact Hrest].
Qed.

Lemma isStateLike_record (fields : list (string * value)) :
  exists like,
    isStateLike (VObj fields) = Ret like
    /\ (like = true -> has_key "value" fields = true).
Proof.
  unfold isStateLike, and_then, js_in, bind.
  change (jstype_eqb (typeof (VObj fields)) TObject) with true.
  destruct (has_key "value" fields).
  - destruct (has_key "context" fields);
      [destruct (has_key "event" fields)|];
      eexists; (split; [reflexivity | reflexivity]).
  - exists false. split; [reflexivity | discriminate].
Qed.

(** Normalising a state value gives a state value. *)
Lemma toStateValue_state_value (v : value) (delimiter : string) :
  state_value v = true ->
  exists p, toStateValue v delimiter = Ret p /\ state_value p = true.
Proof.
  intros Hv. destruct v as [| | b | n | s | items | fields | f];
    try discriminate.
  - rewrite toStateValue_string. eexists. split; [reflexivity|].
    apply nest_strings_state_value.
  - destruct (isStateLike_record fields) as (like & Hlike & Hvalue).
    unfold toStateValue. rewrite Hlike. simpl.
    destruct like.
    + specialize (Hvalue eq_refl). unfold has_key in Hvalue.
      destruct (lookup "value" fields) as [x|] eqn:Hx; [|discriminate].
      exists x. split; [reflexivity|].
      apply (lookup_state_value "value" fields x Hv Hx).
    + exists (VObj fields). split; [reflexivity | exact Hv].
Qed.

Lemma matchesState_reflexive_bounded (n : nat) :
  forall v delimiter,
    weight v <= n -> state_value v = true ->
    matchesState v v delimiter = Some (Ret true).
Proof.
  induction n as [|n IH]; intros v delimiter Hw Hv.
  - pose proof (weight_positive v). lia.
  - rewrite matchesState_equation. unfold matchesState_body.
    destruct (toStateValue_state_value v delimiter Hv) as (p & Hp & Hshape).
    rewrite Hp.
    destruct p as [| | b | k | s | items | fields | f]; try discriminate.
    + simpl. rewrite String.eqb_refl. reflexivity.
    + change (isString (VObj fields)) with false. cbv iota.
      change (keys (VObj fields)) with (Ret (map fst fields)).
      apply every_all_true. intros key Hin.
      pose proof Hin as Hkey. apply has_key_In in Hkey.
      simpl js_in. rewrite Hkey.
      destruct (lookup_present _ _ Hin) as [x Hx].
      simpl get. rewrite Hx.
      apply IH.
      * assert (weight x < weight v); [|lia].
        apply (recursion_lighter v (VObj fields) x delimiter key
                 (map fst fields) Hp eq_refl eq_refl Hin).
        simpl. rewrite Hx. reflexivity.
      * apply (lookup_state_value key fields x Hshape Hx).
Qed.

(** X9: [matchesState] is reflexive on state values: for every string and
    every record of state values [v], and every delimiter,
    [matchesState(v, v)] is true. *)
Theorem matchesState_reflexive (v : value) (delimiter : string) :
  state_value v = true -> matchesState v v delimiter = Some (Ret true).
Proof. apply (matchesState_reflexive_bounded (weight v)). apply le_n. Qed.

Lemma matchesState_reflexive_witness :
  matchesState (VObj [("a", VStr "b.c"); ("d", VObj [])])
               (VObj [("a", VStr "b.c"); ("d", VObj [])]) "/"
  = Some (Ret true).
Proof. apply matchesState_reflexive. reflexivity. Defined.

(** [matchesState] sees its arguments only through their normal forms. *)
Lemma matchesState_normalised (a b p c : value) (d d' : string) :
  toStateValue a d = Ret p -> toStateValue b d = Ret c ->
  toStateValue p d' = Ret p -> toStateValue c d' = Ret c ->
  matchesState a b d = matchesState p c d'.
Proof.
  intros Ha Hb Hp Hc.
  rewrite (matchesState_equation a), (matchesState_equation p).
  unfold matchesState_body. rewrite Ha, Hb, Hp, Hc. reflexivity.
Qed.

Lemma free_of_normal (l : list string) :
  free_of STATE_DELIMITER l ->
  toStateValue (nest (map VStr l)) STATE_DELIMITER = Ret (nest (map VStr l)).
Proof.
  intros Hfree. apply toStateValue_nest_strings.
  intros segment ->. inversion Hfree as [|? ? Hseg _]; subst.
  apply (split_by_whole "." "" segment Hseg).
Qed.

Lemma matchesState_nest_prefix (l : list string) :
  forall q,
    l <> [] -> free_of STATE_DELIMITER (l ++ q) ->
    matchesState (nest (map VStr l)) (nest (map VStr (l ++ q)))
                 STATE_DELIMITER
    = Some (Ret true).
Proof.
  induction l as [|x [|y r] IH]; intros q Hl Hfree; [congruence | |].
  - change ([x] ++ q) with (x :: q) in *.
    rewrite matchesState_equation. unfold matchesState_body.
    rewrite (free_of_normal (x :: q) Hfree).
    assert (Hx : free_of STATE_DELIMITER [x]).
    { inversion Hfree; subst. constructor; [assumption | constructor]. }
    rewrite (free_of_normal [x] Hx).
    destruct q as [|z q'].
    + simpl. rewrite String.eqb_refl. reflexivity.
    + simpl. unfold has_key. simpl. rewrite String.eqb_refl. reflexivity.
  - assert (Htail : free_of STATE_DELIMITER ((y :: r) ++ q)).
    { inversion Hfree; subst. assumption. }
    assert (Hpre : free_of STATE_DELIMITER (x :: y :: r)).
    { exact (proj1 (proj1 (Forall_app _ _ _) Hfree)). }
    rewrite matchesState_equation. unfold matchesState_body.
    rewrite (free_of_normal ((x :: y :: r) ++ q) Hfree).
    rewrite (free_of_normal (x :: y :: r) Hpre).
    change (nest (map VStr ((x :: y :: r) ++ q)))
      with (VObj [(x, nest (map VStr ((y :: r) ++ q)))]).
    change (nest (map VStr (x :: y :: r)))
      with (VObj [(x, nest (map VStr (y :: r)))]).
    change (isString (VObj [(x, nest (map VStr ((y :: r) ++ q)))])) with false.
    change (isString (VObj [(x, nest (map VStr (y :: r)))])) with false.
    cbv iota.
    change (keys (VObj [(x, nest (map VStr (y :: r)))])) with (Ret [x]).
    apply every_all_true. intros key [<-|[]].
    unfold js_in, has_key, get, lookup. rewrite String.eqb_refl.
    apply IH; [discriminate | exact Htail].
Qed.

(** X10: a state matches each of its ancestors.  For paths given as arrays
    whose segments do not contain the default delimiter, every non-empty
    prefix [p] of a path [p ++ q] is matched by it:
    [matchesState(p, p ++ q)] is true, whatever the delimiter passed. *)
Theorem matchesState_ancestor (p q : list string) (delimiter : string) :
  p <> [] -> free_of STATE_DELIMITER (p ++ q) ->
  matchesState (VArr (map VStr p)) (VArr (map VStr (p ++ q))) delimiter
  = Some (Ret true).
Proof.
  intros Hp Hfree.
  assert (Hpre : free_of STATE_DELIMITER p).
  { exact (proj1 (proj1 (Forall_app _ _ _) Hfree)). }
  rewrite (matchesState_normalised
             (VArr (map VStr p)) (VArr (map VStr (p ++ q)))
             (nest (map VStr p)) (nest (map VStr (p ++ q)))
             delimiter STATE_DELIMITER).
  - apply matchesState_nest_prefix; assumption.
  - apply toStateValue_array.
  - apply toStateValue_array.
  - apply free_of_normal. exact Hpre.
  - apply free_of_normal. exact Hfree.
Qed.

Lemma matchesState_ancestor_witness :
  matchesState (VArr (map VStr ["a"; "b"]))
               (VArr (map VStr (["a"; "b"] ++ ["c"; "d"]))) "/"
  = Some (Ret true).
Proof.
  apply (matchesState_ancestor ["a"; "b"] ["c"; "d"] "/"); [discriminate|].
  repeat constructor.
Defined.

(** ** Events and their envelopes *)

Lemma lookup_assign_absent (entries init : list (string * value)) (k : string) :
  ~ In k (map fst entries) ->
  lookup k (fold_left (fun acc kv => set_field (fst kv) (snd kv) acc)
                      entries init)
  = lookup k init.
Proof.
  revert init. induction entries as [|[k0 v0] rest IH]; intros init Hk; simpl.
  - reflexivity.
  - simpl in Hk. rewrite IH by tauto.
    apply lookup_set_field_other. intros ->. apply Hk. left. reflexivity.
Qed.

(** X11: turning an event into an event object does not change its type.
    When the payload has no [type] property of its own,
    [getEventType(toEventObject(event, payload))] is
    [getEventType(event)], errors included. *)
Theorem getEventType_toEventObject (event payload : value) :
  has_key "type" (own_entries payload) = false ->
  getEventType (toEventObject event payload) = getEventType event.
Proof.
  intros Hpayload. destruct event; try reflexivity.
  unfold toEventObject, getEventType, spread. simpl.
  rewrite lookup_assign_absent.
  - reflexivity.
  - intros Hin. apply has_key_In in Hin. congruence.
Qed.

Lemma getEventType_toEventObject_witness :
  getEventType (toEventObject (VStr "TICK") (VObj [("n", VNum 1)]))
  = getEventType (VStr "TICK").
Proof. apply getEventType_toEventObject. reflexivity. Defined.

Lemma isSCXMLEvent_raw (event : value) :
  isSCXMLEvent event = Ret false ->
  get (toEventObject event VUndefined) "type" = getEventType event.
Proof.
  destruct event as [| | b | n | s | items | fields | f];
    try discriminate; intros _; reflexivity.
Qed.

(** X12: the envelope of a raw event.  When [event] is not yet wrapped,
    [toSCXMLEvent(event, overrides)] is a record in which every property
    of the overrides keeps its value, and every other property is the
    default: [name] the type of the event as [getEventType] gives it,
    [data] the event object, [$$type] ['scxml'], [type] ['external']. *)
Theorem toSCXMLEvent_envelope (event scxmlEvent : value) :
  isSCXMLEvent event = Ret false ->
  distinct_keys (own_entries scxmlEvent) ->
  exists name fields,
    getEventType event = Ret name
    /\ toSCXMLEvent event scxmlEvent = Ret (VObj fields)
    /\ forall k,
         lookup k fields
         = match lookup k (own_entries scxmlEvent) with
           | Some v => Some v
           | None =>
               lookup k [("name", name);
                         ("data", toEventObject event VUndefined);
                         ("$$type", VStr "scxml");
                         ("type", VStr "external")]
           end.
Proof.
  intros Hraw Hnd. unfold toSCXMLEvent. rewrite Hraw. cbn [bind].
  rewrite (isSCXMLEvent_raw event Hraw).
  destruct (getEventType event) as [name|e] eqn:Hname.
  - exists name. eexists. split; [reflexivity|].
    cbn [bind]. split; [reflexivity|].
    intros k. unfold spread. apply (lookup_assign _ _ k Hnd).
  - exfalso. destruct event; discriminate.
Qed.

Lemma toSCXMLEvent_envelope_witness :
  exists name fields,
    getEventType (VStr "TICK") = Ret name
    /\ toSCXMLEvent (VStr "TICK") (VObj [("type", VStr "internal")])
       = Ret (VObj fields)
    /\ forall k,
         lookup k fields
         = match lookup k [("type", VStr "internal")] with
           | Some v => Some v
           | None =>
               lookup k [("name", name);
                         ("data", toEventObject (VStr "TICK") VUndefined);
                         ("$$type", VStr "scxml");
                         ("type", VStr "external")]
           end.
Proof.
  apply (toSCXMLEvent_envelope (VStr "TICK") (VObj [("type", VStr "internal")])).
  - reflexivity.
  - unfold distinct_keys. simpl. constructor; [intros [] | constructor].
Defined.

(** ** Transition configs *)

(** X13: every config [toTransitionConfigArray] produces is tagged with the
    triggering event, whatever [event] property the config had.  A
    [configLike] that is not an array gives exactly one config, also when
    it is [undefined]; an array gives one config per item. *)
Theorem toTransitionConfigArray_tagged (event configLike : value) :
  exists configs,
    toTransitionConfigArray event configLike = VArr configs
    /\ (isArray configLike = false -> length configs = 1)
    /\ (forall items, configLike = VArr items ->
          length configs = length items)
    /\ Forall (fun config =>
                 exists fields,
                   config = VObj fields /\ lookup "event" fields = Some event)
              configs.
Proof.
  unfold toTransitionConfigArray. eexists. split; [reflexivity|].
  split; [|split].
  - intros Harr. unfold toArrayStrict. rewrite Harr. reflexivity.
  - intros items ->. simpl. apply length_map.
  - apply Forall_map. apply Forall_forall. intros transitionLike _.
    destruct (jstype_eqb (typeof transitionLike) TUndefined
              || jstype_eqb (typeof transitionLike) TString
              || isMachineNode transitionLike).
    + eexists. split; [reflexivity | reflexivity].
    + eexists. split; [reflexivity | apply lookup_set_field_same].
Qed.

Lemma toTransitionConfigArray_tagged_witness :
  exists configs,
    toTransitionConfigArray (VStr "GO") VUndefined = VArr configs
    /\ length configs = 1.
Proof.
  destruct (toTransitionConfigArray_tagged (VStr "GO") VUndefined)
    as (configs & Hconfigs & Hone & _).
  exists configs. split; [exact Hconfigs | apply Hone; reflexivity].
Defined.

(** ** Observers and arrays *)

(** X14: normalising an observer twice is normalising it once: what
    [toObserver] returns is returned as it is by a second call, whatever
    handlers that call is given; and the [error] and [complete] handlers of
    a record it builds are never falsy. *)
Theorem toObserver_idempotent
  (nextHandler errorHandler completionHandler : value) :
  (forall errorHandler' completionHandler',
     toObserver (toObserver nextHandler errorHandler completionHandler)
                errorHandler' completionHandler'
     = toObserver nextHandler errorHandler completionHandler)
  /\ (typeof nextHandler <> TObject ->
      exists error complete,
        toObserver nextHandler errorHandler completionHandler
        = VObj [("next", nextHandler); ("error", error);
                ("complete", complete)]
        /\ truthy error = true /\ truthy complete = true).
Proof.
  split.
  - intros e' c'. unfold toObserver at 2 3.
    destruct (jstype_eqb (typeof nextHandler) TObject) eqn:Hty.
    + unfold toObserver. rewrite Hty. reflexivity.
    + reflexivity.
  - intros Hty. unfold toObserver.
    destruct (jstype_eqb (typeof nextHandler) TObject) eqn:Hobj.
    + destruct nextHandler; try discriminate; simpl in Hty; congruence.
    + do 2 eexists. split; [reflexivity|].
      unfold js_or.
      split; [destruct (truthy errorHandler) eqn:H
             | destruct (truthy completionHandler) eqn:H];
        (exact H || reflexivity).
Qed.

Lemma toObserver_idempotent_witness :
  exists error complete,
    toObserver noop (VNum 0) VUndefined
    = VObj [("next", noop); ("error", error); ("complete", complete)]
    /\ truthy error = true /\ truthy complete = true.
Proof.
  apply (proj2 (toObserver_idempotent noop (VNum 0) VUndefined)).
  discriminate.
Defined.

(** X15: [toArray] always returns an array and is idempotent; it agrees
    with [toArrayStrict] on every value but [undefined], which
    [toArrayStrict] wraps and [toArray] turns into the empty array. *)
Theorem toArray_idempotent (v : value) :
  isArray (toArray v) = true
  /\ toArray (toArray v) = toArray v
  /\ (v <> VUndefined -> toArray v = toArrayStrict v)
  /\ toArray VUndefined = VArr []
  /\ toArrayStrict VUndefined = VArr [VUndefined].
Proof.
  split; [|split; [|split; [|split]]]; try reflexivity;
    destruct v; try reflexivity; congruence.
Qed.

Lemma toArray_idempotent_witness :
  toArray (VStr "a") = toArrayStrict (VStr "a").
Proof.
  apply (proj1 (proj2 (proj2 (toArray_idempotent (VStr "a"))))). discriminate.
Defined.

(** ** Identifiers *)

Lemma hex_of_N_injective (a b : N) :
  hex_of_N a = hex_of_N b -> a = b.
Proof.
  assert (Hdecode : forall n,
             HexadecimalString.NilZero.uint_of_string (hex_of_N n)
             = Some (N.to_hex_uint n)
             \/ n = 0%N).
  { intros n. unfold hex_of_N.
    pose proof (HexadecimalN.Unsigned.of_to n) as Hn.
    destruct (N.to_hex_uint n) eqn:Hd;
      try (left; apply HexadecimalString.NilZero.usu; discriminate).
    right. symmetry. exact Hn. }
  assert (Hzero : forall n, hex_of_N n = hex_of_N 0 -> n = 0%N).
  { intros n Hn. destruct (Hdecode n) as [Hdec|]; [|assumption].
    rewrite Hn in Hdec.
    assert (H0 : HexadecimalString.NilZero.uint_of_string (hex_of_N 0)
                 = Some (N.to_hex_uint 0)) by reflexivity.
    rewrite H0 in Hdec. injection Hdec as Hdec.
    rewrite <- (HexadecimalN.Unsigned.of_to n), <- Hdec. reflexivity. }
  intros H.
  destruct (Hdecode a) as [Ha | ->]; [|symmetry; apply Hzero; congruence].
  destruct (Hdecode b) as [Hb | ->]; [|apply Hzero; congruence].
  rewrite H in Ha. rewrite Ha in Hb. injection Hb as Hb.
  rewrite <- (HexadecimalN.Unsigned.of_to a),
          <- (HexadecimalN.Unsigned.of_to b), Hb.
  reflexivity.
Qed.

Lemma uniqueId_below (currentId : N) :
  (currentId < 2 ^ 53)%N ->
  uniqueId currentId = (hex_of_N (N.succ currentId), N.succ currentId).
Proof.
  intros H. unfold uniqueId.
  destruct (N.ltb_spec currentId (2 ^ 53)); [reflexivity | lia].
Qed.

Lemma uniqueIds_range (n : nat) :
  forall currentId id,
    (currentId + N.of_nat n <= 2 ^ 53)%N ->
    In id (uniqueIds n currentId) ->
    exists k, (currentId < k)%N /\ id = hex_of_N k.
Proof.
  induction n as [|n IH]; intros c id Hc Hin; [destruct Hin|].
  cbn [uniqueIds] in Hin. rewrite uniqueId_below in Hin by lia.
  destruct Hin as [<-|Hin].
  - exists (N.succ c). split; [lia | reflexivity].
  - destruct (IH (N.succ c) id ltac:(lia) Hin) as (k & Hk & ->).
    exists k. split; [lia | reflexivity].
Qed.

(** X16: [uniqueId] does not return the same identifier twice as long as
    the counter stays within [2^53]: the identifiers of [n] successive
    calls from the counter [currentId] are pairwise distinct when
    [currentId + n <= 2^53]. *)
Theorem uniqueId_distinct (n : nat) (currentId : N) :
  (currentId + N.of_nat n <= 2 ^ 53)%N ->
  NoDup (uniqueIds n currentId).
Proof.
  revert currentId. induction n as [|n IH]; intros c Hc.
  - constructor.
  - cbn [uniqueIds]. rewrite uniqueId_below by lia.
    constructor; [|apply IH; lia].
    intros Hin.
    destruct (uniqueIds_range n (N.succ c) _ ltac:(lia) Hin)
      as (k & Hk & Heq).
    apply hex_of_N_injective in Heq. lia.
Qed.

Lemma uniqueId_distinct_witness : NoDup (uniqueIds 3 14).
Proof. apply uniqueId_distinct. vm_compute. discriminate. Defined.

(** ** Mapping over records *)

Lemma nth_error_fst (fields : list (string * value)) (i : nat) (key : string)
  (item : value) :
  nth_error fields i = Some (key, item) ->
  nth_error (map fst fields) i = Some key.
Proof. intros H. rewrite nth_error_map, H. reflexivity. Qed.

Lemma has_key_absent (key : string) (fields : list (string * value)) :
  has_key key fields = false -> ~ In key (map fst fields).
Proof. intros H Hin. apply has_key_In in Hin. congruence. Qed.

Lemma mapValues_loop_lookup
  (f : value -> string -> value -> nat -> value)
  (fields : list (string * value)) (ks : list string) :
  forall i acc,
    NoDup ks ->
    exists out,
      mapValues_loop (fun item key c i => Ret (f item key c i))
                     (VObj fields) ks i acc
      = Ret (VObj out)
      /\ (forall j key,
            nth_error ks j = Some key ->
            lookup key out
            = Some (f match lookup key fields with
                      | Some x => x
                      | None => VUndefined
                      end key (VObj fields) (i + j)))
      /\ (forall key, ~ In key ks -> lookup key out = lookup key acc).
Proof.
  induction ks as [|key0 rest IH]; intros i acc Hnd.
  - exists acc. split; [reflexivity|]. split.
    + intros [|j] key H; discriminate.
    + reflexivity.
  - inversion Hnd as [|? ? Hnotin Hnd']; subst.
    cbn [mapValues_loop get bind].
    destruct (IH (S i)
                 (set_field key0
                    (f match lookup key0 fields with
                       | Some x => x
                       | None => VUndefined
                       end key0 (VObj fields) i) acc) Hnd')
      as (out & Hout & Hmapped & Hother).
    exists out. split; [exact Hout|]. split.
    + intros [|j] key Hj.
      * injection Hj as <-. rewrite (Hother key0 Hnotin), Nat.add_0_r.
        apply lookup_set_field_same.
      * rewrite (Hmapped j key Hj). do 2 f_equal. lia.
    + intros key Hkey. rewrite Hother by (simpl in Hkey; tauto).
      apply lookup_set_field_other. intros ->. apply Hkey. left. reflexivity.
Qed.

(** X17: [mapValues] keeps the keys and maps the values.  On a record
    without a key ["__proto__"], with an iteratee that does not throw, the
    result holds at each key of the collection the iteratee's value for
    the item, the key, the collection and the index of the key, and has no
    other key; on [undefined] and [null] it throws a [TypeError]. *)
Theorem mapValues_lookup
  (f : value -> string -> value -> nat -> value)
  (fields : list (string * value)) :
  distinct_keys fields -> ~ In "__proto__" (map fst fields) ->
  (exists out,
     mapValues (VObj fields) (fun item key c i => Ret (f item key c i))
     = Ret (VObj out)
     /\ (forall i key item,
           nth_error fields i = Some (key, item) ->
           lookup key out = Some (f item key (VObj fields) i))
     /\ (forall key, has_key key fields = false -> lookup key out = None))
  /\ (forall iteratee,
        mapValues VUndefined iteratee = Throw TypeError
        /\ mapValues VNull iteratee = Throw TypeError).
Proof.
  intros Hnd _. split; [|intros iteratee; split; reflexivity].
  destruct (mapValues_loop_lookup f fields (map fst fields) 0 [] Hnd)
    as (out & Hout & Hmapped & Hother).
  exists out. split; [exact Hout|]. split.
  - intros i key item Hi.
    rewrite (Hmapped i key (nth_error_fst _ _ _ _ Hi)).
    rewrite (lookup_distinct fields key item Hnd (nth_error_In _ _ Hi)).
    reflexivity.
  - intros key Hkey. rewrite (Hother key (has_key_absent _ _ Hkey)).
    reflexivity.
Qed.

Lemma mapValues_lookup_witness :
  exists out,
    mapValues (VObj [("a", VNum 1); ("b", VNum 2)])
              (fun item key c i => Ret (VArr [item; VNum (Z.of_nat i)]))
    = Ret (VObj out)
    /\ lookup "b" out = Some (VArr [VNum 2; VNum 1]).
Proof.
  destruct (proj1 (mapValues_lookup
                     (fun item key c i => VArr [item; VNum (Z.of_nat i)])
                     [("a", VNum 1); ("b", VNum 2)]
                     ltac:(unfold distinct_keys; simpl;
                           repeat constructor; simpl; intuition discriminate)
                     ltac:(simpl; intuition discriminate)))
    as (out & Hout & Hmapped & _).
  exists out. split; [exact Hout | exact (Hmapped 1 "b" (VNum 2) eq_refl)].
Defined.

Lemma mapFilterValues_loop_lookup
  (f : value -> string -> value -> value) (keep : value -> bool)
  (fields : list (string * value)) (ks : list string) :
  forall acc,
    NoDup ks ->
    exists out,
      mapFilterValues_loop (fun item key c => Ret (f item key c))
                           (fun item => Ret (keep item))
                           (VObj fields) ks acc
      = Ret (VObj out)
      /\ (forall key,
            In key ks ->
            lookup key out
            = let item := match lookup key fields with
                          | Some x => x
                          | None => VUndefined
                          end in
              if keep item then Some (f item key (VObj fields))
              else lookup key acc)
      /\ (forall key, ~ In key ks -> lookup key out = lookup key acc).
Proof.
  induction ks as [|key0 rest IH]; intros acc Hnd.
  - exists acc. split; [reflexivity|]. split; [intros key [] | reflexivity].
  - inversion Hnd as [|? ? Hnotin Hnd']; subst.
    cbn [mapFilterValues_loop get bind].
    remember (match lookup key0 fields with
              | Some x => x
              | None => VUndefined
              end) as item0 eqn:Hitem0.
    destruct (keep item0) eqn:Hkeep; cbn [negb bind].
    + destruct (IH (set_field key0 (f item0 key0 (VObj fields)) acc) Hnd')
        as (out & Hout & Hmapped & Hother).
      exists out. split; [exact Hout|]. split.
      * intros key [<-|Hin].
        -- rewrite (Hother key0 Hnotin). cbv zeta.
           rewrite <- Hitem0, Hkeep. apply lookup_set_field_same.
        -- rewrite (Hmapped key Hin). cbv zeta.
           destruct (keep match lookup key fields with
                          | Some x => x
                          | None => VUndefined
                          end); [reflexivity|].
           apply lookup_set_field_other. intros ->. contradiction.
      * intros key Hkey. rewrite Hother by (simpl in Hkey; tauto).
        apply lookup_set_field_other. intros ->. apply Hkey. left. reflexivity.
    + destruct (IH acc Hnd') as (out & Hout & Hmapped & Hother).
      exists out. split; [exact Hout|]. split.
      * intros key [<-|Hin].
        -- rewrite (Hother key0 Hnotin). cbv zeta.
           rewrite <- Hitem0, Hkeep. reflexivity.
        -- apply (Hmapped key Hin).
      * intros key Hkey. apply Hother. simpl in Hkey. tauto.
Qed.

(** X18: [mapFilterValues] keeps exactly the entries whose item passes the
    predicate, mapped.  On a record without a key ["__proto__"], with an
    iteratee and a predicate that
    do not throw, the result holds at the key of each entry the
    iteratee's value if the predicate accepts the item, and has no such
    key otherwise, nor any key the collection has not. *)
Theorem mapFilterValues_lookup
  (f : value -> string -> value -> value) (keep : value -> bool)
  (fields : list (string * value)) :
  distinct_keys fields -> ~ In "__proto__" (map fst fields) ->
  exists out,
    mapFilterValues (VObj fields)
                    (fun item key c => Ret (f item key c))
                    (fun item => Ret (keep item))
    = Ret (VObj out)
    /\ (forall key item,
          In (key, item) fields ->
          lookup key out
          = if keep item then Some (f item key (VObj fields)) else None)
    /\ (forall key, has_key key fields = false -> lookup key out = None).
Proof.
  intros Hnd _.
  destruct (mapFilterValues_loop_lookup f keep fields (map fst fields) [] Hnd)
    as (out & Hout & Hmapped & Hother).
  exists out. split; [exact Hout|]. split.
  - intros key item Hin.
    rewrite (Hmapped key (in_map fst _ _ Hin)). cbv zeta.
    rewrite (lookup_distinct fields key item Hnd Hin). reflexivity.
  - intros key Hkey. rewrite (Hother key (has_key_absent _ _ Hkey)).
    reflexivity.
Qed.

Lemma mapFilterValues_lookup_witness :
  exists out,
    mapFilterValues (VObj [("a", VNum 1); ("b", VNum 0)])
                    (fun item key c => Ret (VStr key))
                    (fun item => Ret (truthy item))
    = Ret (VObj out)
    /\ lookup "a" out = Some (VStr "a")
    /\ lookup "b" out = None.
Proof.
  destruct (mapFilterValues_lookup
              (fun item key c => VStr key) truthy
              [("a", VNum 1); ("b", VNum 0)]
              ltac:(unfold distinct_keys; simpl;
                    repeat constructor; simpl; intuition discriminate)
              ltac:(simpl; intuition discriminate))
    as (out & Hout & Hmapped & _).
  exists out. split; [exact Hout|]. split.
  - exact (Hmapped "a" (VNum 1) (or_introl eq_refl)).
  - exact (Hmapped "b" (VNum 0) (or_intror (or_introl eq_refl))).
Defined.

Section MapContext.

Variable call : closure -> list value -> result value.
Variables (context _event : value).

(** What [mapContext] stores for an entry: the value returned by the
    entry when it is a function, the entry itself otherwise. *)
Variable returned : closure -> value.

Lemma mapContext_loop_lookup (fields : list (string * value))
  (ks : list string) :
  (forall key f,
     In key ks -> lookup key fields = Some (VFun f) ->
     exists data,
       get _event "data" = Ret data
       /\ call f [context; data] = Ret (returned f)) ->
  forall acc,
    NoDup ks ->
    exists out,
      mapContext_loop call (VObj fields) context _event ks acc
      = Ret (VObj out)
      /\ (forall key,
            In key ks ->
            lookup key out
            = Some match lookup key fields with
                   | Some (VFun f) => returned f
                   | Some x => x
                   | None => VUndefined
                   end)
      /\ (forall key, ~ In key ks -> lookup key out = lookup key acc).
Proof.
  induction ks as [|key0 rest IH]; intros Hcalls acc Hnd.
  - exists acc. split; [reflexivity|]. split; [intros key [] | reflexivity].
  - inversion Hnd as [|? ? Hnotin Hnd']; subst.
    assert (Hrest : forall key f,
               In key rest -> lookup key fields = Some (VFun f) ->
               exists data,
                 get _event "data" = Ret data
                 /\ call f [context; data] = Ret (returned f)).
    { intros key f Hin. apply Hcalls. right. exact Hin. }
    assert (Hstep : exists stored,
               mapContext_loop call (VObj fields) context _event
                               (key0 :: rest) acc
               = mapContext_loop call (VObj fields) context _event rest
                                 (set_field key0 stored acc)
               /\ stored = match lookup key0 fields with
                           | Some (VFun f) => returned f
                           | Some x => x
                           | None => VUndefined
                           end).
    { cbn [mapContext_loop get bind].
      destruct (lookup key0 fields) as [[| | b | n | s | items | fs | f]|]
        eqn:Hsub;
        try (eexists; split; reflexivity).
      destruct (Hcalls key0 f (or_introl eq_refl) Hsub) as (data & Hd & Hc).
      rewrite Hd. cbn [bind]. rewrite Hc. cbn [bind].
      eexists; split; reflexivity. }
    destruct Hstep as (stored & -> & Hstored).
    destruct (IH Hrest (set_field key0 stored acc) Hnd')
      as (out & Hout & Hmapped & Hother).
    exists out. split; [exact Hout|]. split.
    + intros key [<-|Hin].
      * rewrite (Hother key0 Hnotin), <- Hstored.
        apply lookup_set_field_same.
      * apply (Hmapped key Hin).
    + intros key Hkey. rewrite Hother by (simpl in Hkey; tauto).
      apply lookup_set_field_other. intros ->. apply Hkey. left. reflexivity.
Qed.

(** X19: [mapContext] with a record of mappers calls the entries that are
    functions and copies the others.  When the mapper has no key
    ["__proto__"] and every function-valued entry
    returns on [(context, _event.data)], the result holds at each key of
    the mapper what the entry returned if it is a function and the entry
    itself otherwise, and has no other key; [_event] is only read for an
    entry that is a function. *)
Theorem mapContext_record (fields : list (string * value)) :
  distinct_keys fields -> ~ In "__proto__" (map fst fields) ->
  (forall key f,
     In (key, VFun f) fields ->
     exists data,
       get _event "data" = Ret data
       /\ call f [context; data] = Ret (returned f)) ->
  exists out,
    mapContext call (VObj fields) context _event = Ret (VObj out)
    /\ (forall key subMapper,
          In (key, subMapper) fields ->
          lookup key out
          = Some match subMapper with
                 | VFun f => returned f
                 | _ => subMapper
                 end)
    /\ (forall key, has_key key fields = false -> lookup key out = None).
Proof.
  intros Hnd _ Hcalls.
  destruct (mapContext_loop_lookup fields (map fst fields)) with (acc := @nil (string * value))
    as (out & Hout & Hmapped & Hother).
  - intros key f Hin Hsub. apply (Hcalls key f).
    apply in_map_iff in Hin. destruct Hin as ([k x] & <- & Hkx). simpl in *.
    rewrite (lookup_distinct fields k x Hnd Hkx) in Hsub.
    injection Hsub as <-. exact Hkx.
  - exact Hnd.
  - exists out. split; [exact Hout|]. split.
    + intros key sub Hin.
      rewrite (Hmapped key (in_map fst _ _ Hin)).
      rewrite (lookup_distinct fields key sub Hnd Hin).
      destruct sub; reflexivity.
    + intros key Hkey. rewrite (Hother key (has_key_absent _ _ Hkey)).
      reflexivity.
Qed.

End MapContext.

Lemma mapContext_record_witness :
  exists out,
    mapContext (fun f args => Ret (VArr args))
               (VObj [("count", VNum 1); ("last", noop)])
               (VStr "ctx") (VObj [("data", VStr "payload")])
    = Ret (VObj out)
    /\ lookup "count" out = Some (VNum 1)
    /\ lookup "last" out = Some (VArr [VStr "ctx"; VStr "payload"]).
Proof.
  destruct (mapContext_record
              (fun f args => Ret (VArr args))
              (VStr "ctx") (VObj [("data", VStr "payload")])
              (fun _ => VArr [VStr "ctx"; VStr "payload"])
              [("count", VNum 1); ("last", noop)])
    as (out & Hout & Hmapped & _).
  - unfold distinct_keys. simpl.
    repeat constructor; simpl; intuition discriminate.
  - simpl. intuition discriminate.
  - intros key f _. exists (VStr "payload"). split; reflexivity.
  - exists out. split; [exact Hout|]. split.
    + exact (Hmapped "count" (VNum 1) (or_introl eq_refl)).
    + exact (Hmapped "last" noop (or_intror (or_introl eq_refl))).
Defined.
